(** * ai-code-patterns: the code-block extractor, the comment tagger and
    the per-file orchestration step.

    The development embeds

    - [extractCodeBlock] (dist/extractCodeBlock.js, and the earlier
      TypeScript revision of the same function that lacks the [s] flag),
    - [generateComment] (src/generateComment.ts, and the earlier revision
      that keeps only the text before the first dot),
    - [requiresProcessing], [processFile], [getParams], [getFilePaths]
      and [main] (index.ts),

    together with the small part of the JavaScript string and regular
    expression library these functions call. *)

From Stdlib Require Import NArith Ascii String DecimalString DecimalNat Lia.
From stdpp Require Import base option list gmap.

Local Open Scope N_scope.
Local Open Scope nat_scope.

(** ** JavaScript strings

    A JavaScript string is a finite sequence of UTF-16 code units. *)

Abbreviation char := N.
Abbreviation jsstring := (list N).

(** Code units of the characters the program names. *)
Definition NL : char := 10%N.       (* \n *)
Definition CR : char := 13%N.       (* \r *)
Definition LS : char := 8232%N.     (* U+2028 *)
Definition PS : char := 8233%N.     (* U+2029 *)
Definition BT : char := 96%N.       (* ` *)
Definition QUOTE : char := 34%N.    (* the double quote *)
Definition DOT : char := 46%N.      (* . *)

(** An ASCII literal as a JavaScript string. *)
Definition str (s : string) : jsstring :=
  map N_of_ascii (list_ascii_of_string s).

(** [String(n)] for a non-negative integer, as used by template literals. *)
Definition number_to_string (n : nat) : jsstring :=
  str (NilEmpty.string_of_uint (Nat.to_uint n)).

(** [String.prototype.startsWith]. *)
Fixpoint startsWith (s t : jsstring) {struct t} : bool :=
  match t, s with
  | [], _ => true
  | _ :: _, [] => false
  | b :: t', a :: s' => N.eqb a b && startsWith s' t'
  end.

(** [String.prototype.includes]: some suffix of [s] starts with [t]. *)
Fixpoint includes (s t : jsstring) : bool :=
  startsWith s t ||
  match s with
  | [] => false
  | _ :: s' => includes s' t
  end.

(** [s.split(sep)[0]] for a one-character separator: the text before the
    first occurrence of the separator (all of [s] when there is none). *)
Fixpoint split_head (sep : char) (s : jsstring) : jsstring :=
  match s with
  | [] => []
  | c :: s' => if N.eqb c sep then [] else c :: split_head sep s'
  end.

(** ** Regular expressions

    The fragment of ECMAScript patterns the program uses: a sequence of
    literal characters, greedy or lazy repetitions of a one-character
    class, and the two ends of a capture group. *)

Inductive node : Type :=
  | Lit (c : char)
  | Star (greedy : bool) (cls : char -> bool)
  | GroupOpen
  | GroupClose.

Abbreviation regex := (list node).

(** The state threaded through a match attempt: how many code units have
    been consumed since the start of the attempt and where capture group 1
    began and ended (offsets from the start of the attempt). *)
Record MatchState : Type := mkState {
  endIndex : nat;
  group_open : option nat;
  group_close : option nat
}.

Definition initial : MatchState := mkState 0 None None.

Definition advance (x : MatchState) : MatchState :=
  mkState (S (endIndex x)) (group_open x) (group_close x).

Definition open_group (x : MatchState) : MatchState :=
  mkState (endIndex x) (Some (endIndex x)) None.

Definition close_group (x : MatchState) : MatchState :=
  mkState (endIndex x) (group_open x) (Some (endIndex x)).

(** A repetition [cls*] (greedy) or [cls*?] (lazy) followed by the rest of
    the pattern, given as the continuation [k].  The greedy form first
    tries one more character and falls back to the continuation; the lazy
    form tries the continuation first and only then one more character:
    the order in which the ECMAScript matcher backtracks. *)
Fixpoint star_loop (greedy : bool) (cls : char -> bool)
    (k : jsstring -> MatchState -> option MatchState)
    (s : jsstring) (x : MatchState) {struct s} : option MatchState :=
  match s with
  | a :: s' =>
      if cls a then
        if greedy then
          match star_loop greedy cls k s' (advance x) with
          | Some y => Some y
          | None => k s x
          end
        else
          match k s x with
          | Some y => Some y
          | None => star_loop greedy cls k s' (advance x)
          end
      else k s x
  | [] => k s x
  end.

(** The backtracking matcher.  [run p s x] matches pattern [p] against the
    input [s] (what remains of the subject) from state [x] and returns the
    first successful final state. *)
Fixpoint run (p : regex) (s : jsstring) (x : MatchState) {struct p}
  : option MatchState :=
  match p with
  | [] => Some x
  | Lit c :: p' =>
      match s with
      | a :: s' => if N.eqb a c then run p' s' (advance x) else None
      | [] => None
      end
  | GroupOpen :: p' => run p' s (open_group x)
  | GroupClose :: p' => run p' s (close_group x)
  | Star greedy cls :: p' => star_loop greedy cls (run p') s x
  end.

(** JavaScript values that a match array or the extractor can hold. *)
Inductive value : Type :=
  | VUndefined
  | VNull
  | VString (s : jsstring).

(** The array a successful match produces: the matched text followed by
    capture group 1 ([undefined] when the group took no part). *)
Definition match_array (s : jsstring) (x : MatchState) : list value :=
  [ VString (take (endIndex x) s);
    match group_open x, group_close x with
    | Some a, Some b => VString (take (b - a) (drop a s))
    | _, _ => VUndefined
    end ].

(** [RegExp.prototype.exec] without the [g] flag: the match attempt is made
    at every index from the left until one succeeds. *)
Fixpoint exec (r : regex) (s : jsstring) : option (list value) :=
  match run r s initial with
  | Some x => Some (match_array s x)
  | None =>
      match s with
      | [] => None
      | _ :: s' => exec r s'
      end
  end.

(** The loop of [String.prototype.match] with the [g] flag.  [s] is the
    subject from index [i] on; indices below [lastIndex] were consumed by
    the previous match and are stepped over.  After a match ending at [e]
    the next search starts at [e], or one further when the match was
    empty. *)
Fixpoint match_loop (r : regex) (s : jsstring) (i lastIndex : nat)
  : list jsstring :=
  if i <? lastIndex then
    match s with
    | [] => []
    | _ :: s' => match_loop r s' (S i) lastIndex
    end
  else
    match run r s initial with
    | Some x =>
        let e := i + endIndex x in
        take (endIndex x) s ::
        match s with
        | [] => []
        | _ :: s' => match_loop r s' (S i) (if e =? i then S i else e)
        end
    | None =>
        match s with
        | [] => []
        | _ :: s' => match_loop r s' (S i) lastIndex
        end
    end.

(** [s.match(r)] for a global [r]: the array of all matched texts, or
    [null] (here [None]) when there is none. *)
Definition match_global (r : regex) (s : jsstring) : option (list jsstring) :=
  match match_loop r s 0 0 with
  | [] => None
  | l => Some l
  end.

(** [s.match(r)] for a non-global [r]. *)
Definition match_first (r : regex) (s : jsstring) : option (list value) :=
  exec r s.

(** ** The fence pattern *)

Definition fence : jsstring := [BT; BT; BT].

(** [[^\n]] *)
Definition not_newline (c : char) : bool := negb (N.eqb c NL).

(** [.]: any code unit with the [s] flag, any but a line terminator
    without it. *)
Definition is_line_terminator (c : char) : bool :=
  N.eqb c NL || N.eqb c CR || N.eqb c LS || N.eqb c PS.

Definition dot (dotAll : bool) (c : char) : bool :=
  dotAll || negb (is_line_terminator c).

(** The pattern [```[^\n]*\n(.*?)\n```]; [dotAll] is the [s] flag. *)
Definition fence_regex (dotAll : bool) : regex :=
  [ Lit BT; Lit BT; Lit BT;
    Star true not_newline;
    Lit NL;
    GroupOpen; Star false (dot dotAll); GroupClose;
    Lit NL;
    Lit BT; Lit BT; Lit BT ].

(** ** Results of functions that may throw *)

Inductive error : Type := Error (message : jsstring).

Inductive outcome (A : Type) : Type :=
  | Return (v : A)
  | Throw (e : error).
Arguments Return {A} v.
Arguments Throw {A} e.

(** The error [extractCodeBlock] raises, as a function of the count its
    message reports. *)
Definition block_count_error (n : nat) : error :=
  Error (str "Expected exactly one code block, got " ++ number_to_string n).

(** [count ? count.length : 0] *)
Definition observed_count {A} (count : option (list A)) : nat :=
  match count with
  | Some l => length l
  | None => 0
  end.

(** [!a] and [a === null] on the result of [match]. *)
Definition is_null {A} (a : option (list A)) : bool :=
  match a with
  | Some _ => false
  | None => true
  end.

(** [a.length] and [a[1]] on a non-null array; the program evaluates them
    only behind a null test. *)
Definition array_length {A} (a : option (list A)) : nat :=
  length (default [] a).

Definition index1 (m : option (list value)) : value :=
  nth 1 (default [] m) VUndefined.

(** ** extractCodeBlock *)

(** dist/extractCodeBlock.js: both patterns carry the [s] flag. *)
Module Dist.

Definition extractCodeBlock (response : jsstring) : outcome value :=
  let count := match_global (fence_regex true) response in
  let m := match_first (fence_regex true) response in
  if is_null count || negb (array_length count =? 1)
     || is_null m || negb (array_length m =? 2)
  then Throw (block_count_error (observed_count count))
  else Return (index1 m).

End Dist.

(** The earlier TypeScript revision: no [s] flag, and a [null] result when
    the non-global match fails. *)
Module Draft.

Definition extractCodeBlock (response : jsstring) : outcome value :=
  let count := match_global (fence_regex false) response in
  let m := match_first (fence_regex false) response in
  if is_null count || negb (array_length count =? 1)
  then Throw (block_count_error (observed_count count))
  else if is_null m then Return VNull else Return (index1 m).

End Draft.

(** ** generateComment *)

(** JavaScript truthiness of an optional string argument: [undefined] and
    the empty string are falsy. *)
Definition truthy (d : option jsstring) : bool :=
  match d with
  | Some (_ :: _) => true
  | _ => false
  end.

(** The text an optional string contributes to a template literal that is
    only evaluated when the argument is truthy. *)
Definition text_of (d : option jsstring) : jsstring := default [] d.

(** src/generateComment.ts *)
Definition generateComment (promptName : jsstring) (date : option jsstring)
  : jsstring :=
  let comment :=
    str "// performed " ++ QUOTE :: promptName ++ QUOTE :: str " review" in
  if truthy date then comment ++ str " on " ++ text_of date else comment.

(** The earlier revision, which takes the prompt file name and keeps the
    text before its first dot. *)
Module Draft_comment.

Definition generateComment (promptFile : jsstring) (date : option jsstring)
  : jsstring :=
  let promptName := split_head DOT promptFile in
  let comment :=
    str "// performed " ++ QUOTE :: promptName ++ QUOTE :: str " review" in
  if truthy date then comment ++ str " on " ++ text_of date else comment.

End Draft_comment.

(** ** The orchestrator: requiresProcessing and processFile (index.ts) *)

(** [s.replace(c, e)] for a one-character pattern [c] and the empty
    replacement [e]: the first occurrence of [c] is removed. *)
Fixpoint remove_first (c : char) (s : jsstring) : jsstring :=
  match s with
  | [] => []
  | a :: s' => if N.eqb a c then s' else a :: remove_first c s'
  end.

(** How a template literal renders a value. *)
Definition to_string (v : value) : jsstring :=
  match v with
  | VUndefined => str "undefined"
  | VNull => str "null"
  | VString s => s
  end.

Definition sharedPrompt : jsstring :=
  str "Please maintain all logic, comments, imports." ++ NL ::
  str "Return the response as a code block with no additional explanation."
  ++ NL ::
  str "If no code changes are needed, return the original code block.".

(** The file system: the content of every file that exists, by path. *)
Abbreviation filesystem := (gmap (list N) (list N)).

(** What the orchestrator prints. *)
Inductive log : Type :=
  | LogSkipping (filePath : jsstring)
  | LogProcessing (filePath : jsstring)
  | LogFinished
  | LogError (e : error).

Definition readFile (fs : filesystem) (filePath : jsstring)
  : outcome jsstring :=
  match fs !! filePath with
  | Some content => Return content
  | None => Throw (Error (str "ENOENT: no such file or directory"))
  end.

Definition writeFile (fs : filesystem) (filePath content : jsstring)
  : filesystem :=
  <[filePath := content]> fs.

Definition requiresProcessing (fs : filesystem)
    (filePath promptName : jsstring) : outcome bool :=
  match readFile fs filePath with
  | Throw e => Throw e
  | Return fileContent =>
      let generatedComment := generateComment promptName None in
      if includes fileContent generatedComment
      then Return false
      else Return true
  end.

Section Orchestrator.

(** The collaborators the orchestrator calls: [path.extname], the
    completion endpoint (which may throw, or answer with a null
    content), and the clock read by [moment().format(...)]. *)
Variable extname : jsstring -> jsstring.
Variable create_completion :
  jsstring -> jsstring -> outcome (option jsstring).
Variable date : jsstring.

(** The text sent to the endpoint: the prompt, the shared instructions
    and the file in a fence tagged with its extension. *)
Definition completion_input (prompt extension fileContent : jsstring)
  : jsstring :=
  prompt ++ [NL; NL] ++ sharedPrompt ++ [NL; NL] ++ fence ++
  extension ++ [NL] ++ fileContent ++ fence ++ [NL].

(** [processFile] returns the file system it leaves behind and what it
    printed; the [try]/[catch] turns every exception into a log line. *)
Definition processFile (fs : filesystem)
    (filePath prompt promptName gptModel : jsstring)
  : filesystem * list log :=
  match readFile fs filePath with
  | Throw e => (fs, [LogError e])
  | Return fileContent =>
      let generatedComment := generateComment promptName (Some date) in
      if includes fileContent generatedComment
      then (fs, [LogSkipping filePath])
      else
        let extension := remove_first DOT (extname filePath) in
        let input := completion_input prompt extension fileContent in
        match create_completion gptModel input with
        | Throw e => (fs, [LogProcessing filePath; LogError e])
        | Return content =>
            let response := default [] content in
            match Dist.extractCodeBlock response with
            | Throw e => (fs, [LogProcessing filePath; LogError e])
            | Return extractedCode =>
                let updatedContent :=
                  generatedComment ++ [NL] ++ to_string extractedCode in
                (writeFile fs filePath updatedContent,
                 [LogProcessing filePath; LogFinished])
            end
        end
  end.

End Orchestrator.

(** ** The fence pattern read directly

    Two scanners that do by hand what the two repetitions of the pattern
    do; the lemmas below show that the matcher computes exactly these. *)

(** The length of the text before the first newline, and what follows
    that newline: [[^\n]*\n]. *)
Fixpoint skip_tag (s : jsstring) : option (nat * jsstring) :=
  match s with
  | [] => None
  | a :: s' =>
      if N.eqb a NL then Some (0, s')
      else match skip_tag s' with
           | Some (n, r) => Some (S n, r)
           | None => None
           end
  end.

(** The length of the shortest run of [.] characters that is followed by
    a newline and a fence: [(.*?)\n```]. *)
Fixpoint find_close (dotAll : bool) (s : jsstring) : option nat :=
  if startsWith s (NL :: fence) then Some 0
  else match s with
       | a :: s' => if dot dotAll a then S <$> find_close dotAll s' else None
       | [] => None
       end.

(** The final state of a match of the fence pattern whose language tag
    has length [n] and whose content has length [k]. *)
Definition block_state (n k : nat) : MatchState :=
  mkState (3 + n + 1 + k + 4) (Some (3 + n + 1)) (Some (3 + n + 1 + k)).

(** An attempt of the fence pattern at the head of [s], by the scanners. *)
Definition scan_block (dotAll : bool) (s : jsstring) : option MatchState :=
  match s with
  | a :: b :: c :: s1 =>
      if N.eqb a BT && N.eqb b BT && N.eqb c BT then
        match skip_tag s1 with
        | Some (n, s2) => block_state n <$> find_close dotAll s2
        | None => None
        end
      else None
  | _ => None
  end.

(** All matches of the global fence pattern, left to right. *)
Definition matches (dotAll : bool) (s : jsstring) : list jsstring :=
  match_loop (fence_regex dotAll) s 0 0.

(** ** The fence pattern in words

    [t] occurs in [s]. *)
Definition occurs_in (t s : jsstring) : Prop :=
  exists pre post, s = pre ++ t ++ post.

(** The text of a fenced block: an opening fence with its language tag, a
    newline, the content, a newline and the closing fence. *)
Definition block_text (tag body : jsstring) : jsstring :=
  fence ++ tag ++ NL :: body ++ NL :: fence.

(** The tag stays on the line of the opening fence, the content is made of
    characters [.] accepts, and the content is minimal: no newline
    followed by a fence occurs inside it. *)
Definition well_fenced (dotAll : bool) (tag body : jsstring) : Prop :=
  (NL ∉ tag) /\
  (forall c, c ∈ body -> dot dotAll c = true) /\
  ~ occurs_in (NL :: fence) body.

(** A match of the fence pattern begins at the head of [s]. *)
Definition starts_block (dotAll : bool) (s : jsstring) : Prop :=
  exists tag body rest,
    s = block_text tag body ++ rest /\ well_fenced dotAll tag body.

(** [blocks d s l]: [l] lists the non-overlapping matches of the fence
    pattern in [s], found from the left: each match is the leftmost one in
    what follows the previous match. *)
Inductive blocks (dotAll : bool) : jsstring -> list jsstring -> Prop :=
  | blocks_none s :
      (forall pre s', s = pre ++ s' -> ~ starts_block dotAll s') ->
      blocks dotAll s []
  | blocks_next pre tag body rest l :
      well_fenced dotAll tag body ->
      (forall p1 p2, pre = p1 ++ p2 -> p2 <> [] ->
         ~ starts_block dotAll (p2 ++ block_text tag body ++ rest)) ->
      blocks dotAll rest l ->
      blocks dotAll (pre ++ block_text tag body ++ rest)
        (block_text tag body :: l).

(** ** Lines

    The lines of a text: the pieces between its newlines. *)
Fixpoint lines (s : jsstring) : list jsstring :=
  match s with
  | [] => [[]]
  | c :: s' =>
      if N.eqb c NL then [] :: lines s'
      else match lines s' with
           | l :: ls => (c :: l) :: ls
           | [] => [[c]]
           end
  end.

(** A line that begins with a fence. *)
Definition opens_with_fence (l : jsstring) : bool := startsWith l fence.



(** How many lines of the text begin with a fence. *)
Definition fence_line_count (s : jsstring) : nat :=
  length (filter (fun l => opens_with_fence l = true) (lines s)).

(** ** Inputs of the scenarios *)

Definition scenario1 : jsstring :=
  str "Here is some text" ++ NL :: str "```typescript" ++ NL ::
  str "code block" ++ NL :: str "```" ++ NL :: str "More text".

Definition three_fence_lines : jsstring :=
  str "```" ++ NL :: str "a" ++ NL :: str "```" ++ NL ::
  str "prose" ++ NL :: str "```".

(** Two fenced blocks, as in the third test of the extractor. *)
Definition two_blocks : jsstring :=
  str "Here is some text" ++ NL :: str "```typescript" ++ NL ::
  str "first block" ++ NL :: str "```" ++ NL :: str "More text" ++ NL ::
  str "```typescript" ++ NL :: str "second block" ++ NL :: str "```".



(** A block whose content has blank lines and outer white space. *)
Definition padded_block : jsstring :=
  str "```js" ++ NL :: str "  a" ++ NL :: NL :: str " b  " ++ NL ::
  str "```" ++ NL :: str "done".

(** ** More of the string library *)

(** [s.split(sep)] for a one-character separator: the pieces between the
    separators; the empty string gives one empty piece. *)
Fixpoint split (sep : char) (s : jsstring) : list jsstring :=
  match s with
  | [] => [[]]
  | c :: s' =>
      if N.eqb c sep then [] :: split sep s'
      else match split sep s' with
           | p :: ps => (c :: p) :: ps
           | [] => [[c]]
           end
  end.

(** [l.join(sep)] *)
Fixpoint join (sep : jsstring) (l : list jsstring) : jsstring :=
  match l with
  | [] => []
  | x :: l' =>
      match l' with
      | [] => x
      | _ :: _ => x ++ sep ++ join sep l'
      end
  end.

(** The code units [trim] removes: the white space and the line
    terminators of ECMAScript. *)
Definition is_white_space (c : char) : bool :=
  N.eqb c 9 || N.eqb c 10 || N.eqb c 11 || N.eqb c 12 || N.eqb c 13 ||
  N.eqb c 32 || N.eqb c 160 || N.eqb c 5760 ||
  (N.leb 8192 c && N.leb c 8202) ||
  N.eqb c 8232 || N.eqb c 8233 || N.eqb c 8239 || N.eqb c 8287 ||
  N.eqb c 12288 || N.eqb c 65279.

Fixpoint trimStart (s : jsstring) : jsstring :=
  match s with
  | [] => []
  | c :: s' => if is_white_space c then trimStart s' else s
  end.

Definition trimEnd (s : jsstring) : jsstring :=
  reverse (trimStart (reverse s)).

(** [String.prototype.trim] *)
Definition trim (s : jsstring) : jsstring := trimEnd (trimStart s).

(** [s.replace(pat, rep)] for a string pattern: the first occurrence of
    [pat] is replaced. *)
Fixpoint replace (pat rep s : jsstring) : jsstring :=
  if startsWith s pat then rep ++ drop (length pat) s
  else match s with
       | [] => []
       | c :: s' => c :: replace pat rep s'
       end.

(** Truthiness of a string and of an optional string. *)
Definition nonempty (s : jsstring) : bool :=
  match s with
  | [] => false
  | _ :: _ => true
  end.

(** ** getParams (index.ts) *)

(** A run that ends in [process.exit(1)] after printing [message]. *)
Inductive exiting (A : Type) : Type :=
  | Proceed (v : A)
  | Exit (message : jsstring).
Arguments Proceed {A} v.
Arguments Exit {A} message.

Record IParams : Type := mkParams {
  promptPath : jsstring;
  promptName : jsstring;
  gptModel : jsstring;
  sourcePath : jsstring;
  includesText : option jsstring;
  extensions : option (list jsstring);
  dryRun : bool
}.

(** The local variables of [getParams]. *)
Record locals : Type := mkLocals {
  l_promptPath : option jsstring;
  l_promptName : option jsstring;
  l_sourcePath : option jsstring;
  l_includesText : option jsstring;
  l_gptModel : option jsstring;
  l_extensions : option (list jsstring);
  l_dryRun : bool
}.

(** [arg.slice(n).split(",").map((ext) => ext.trim()).filter(Boolean)] *)
Definition parse_extensions (arg : jsstring) : list jsstring :=
  filter (fun e => nonempty e = true)
    (map trim (split 44%N (drop (length (str "--ext=")) arg))).

Definition usage : jsstring :=
  str "Usage: ai-code-patterns [--includes=text] [--ext=ts,js,...] [--dry] [--name=promptName] [--model=gpt-4o] <promptPath> <sourcePath>".

Section Arguments.

(** [path.basename] *)
Variable basename : jsstring -> jsstring.

(** One turn of the loop over [process.argv]. *)
Definition getParams_step (v : locals) (arg : jsstring) : exiting locals :=
  if bool_decide (arg = str "--dry") then
    Proceed (mkLocals (l_promptPath v) (l_promptName v) (l_sourcePath v)
               (l_includesText v) (l_gptModel v) (l_extensions v) true)
  else if startsWith arg (str "--name=") then
    Proceed (mkLocals (l_promptPath v)
               (Some (drop (length (str "--name=")) arg)) (l_sourcePath v)
               (l_includesText v) (l_gptModel v) (l_extensions v)
               (l_dryRun v))
  else if startsWith arg (str "--model=") then
    Proceed (mkLocals (l_promptPath v) (l_promptName v) (l_sourcePath v)
               (l_includesText v)
               (Some (drop (length (str "--model=")) arg)) (l_extensions v)
               (l_dryRun v))
  else if startsWith arg (str "--includes=") then
    Proceed (mkLocals (l_promptPath v) (l_promptName v) (l_sourcePath v)
               (Some (drop (length (str "--includes=")) arg))
               (l_gptModel v) (l_extensions v) (l_dryRun v))
  else if startsWith arg (str "--ext=") then
    Proceed (mkLocals (l_promptPath v) (l_promptName v) (l_sourcePath v)
               (l_includesText v) (l_gptModel v)
               (Some (parse_extensions arg)) (l_dryRun v))
  else if startsWith arg (str "--") then
    Exit (str "Unknown option: " ++ arg)
  else if negb (truthy (l_promptPath v)) then
    Proceed (mkLocals (Some arg)
               (if negb (truthy (l_promptName v))
                then Some (replace (str ".review") [] (basename arg))
                else l_promptName v)
               (l_sourcePath v) (l_includesText v) (l_gptModel v)
               (l_extensions v) (l_dryRun v))
  else if negb (truthy (l_sourcePath v)) then
    Proceed (mkLocals (l_promptPath v) (l_promptName v) (Some arg)
               (l_includesText v) (l_gptModel v) (l_extensions v)
               (l_dryRun v))
  else Proceed v.

(** The loop: it stops at the first argument that exits. *)
Fixpoint getParams_loop (v : locals) (args : list jsstring)
  : exiting locals :=
  match args with
  | [] => Proceed v
  | arg :: args' =>
      match getParams_step v arg with
      | Proceed v' => getParams_loop v' args'
      | Exit m => Exit m
      end
  end.

(** The checks behind the loop. *)
Definition getParams_finish (v : locals) : exiting IParams :=
  if negb (truthy (l_gptModel v)) then
    Exit (str "Please set OPENAI_GPT_MODEL or use --model=<model>")
  else if negb (truthy (l_promptPath v)) || negb (truthy (l_sourcePath v))
          || negb (truthy (l_promptName v)) then
    Exit usage
  else
    Proceed (mkParams (text_of (l_promptPath v)) (text_of (l_promptName v))
               (text_of (l_gptModel v)) (text_of (l_sourcePath v))
               (l_includesText v) (l_extensions v) (l_dryRun v)).

(** [getParams], from [process.env.OPENAI_GPT_MODEL] and [process.argv];
    the loop starts at index 2. *)
Definition getParams (env_model : option jsstring) (argv : list jsstring)
  : exiting IParams :=
  match getParams_loop
          (mkLocals None None None None env_model None false)
          (drop 2 argv) with
  | Proceed v => getParams_finish v
  | Exit m => Exit m
  end.

End Arguments.

(** An argument the loop of [getParams] rejects: it begins with two
    dashes and is none of the options the loop knows. *)
Definition unknown_option (arg : jsstring) : bool :=
  negb (bool_decide (arg = str "--dry")) &&
  negb (startsWith arg (str "--name=")) &&
  negb (startsWith arg (str "--model=")) &&
  negb (startsWith arg (str "--includes=")) &&
  negb (startsWith arg (str "--ext=")) &&
  startsWith arg (str "--").

(** ** getFilePaths (index.ts) *)

Definition defaultExtensions : list jsstring :=
  [str "ts"; str "js"; str "py"; str "java"; str "cpp"; str "swift";
   str "kt"; str "go"; str "rb"].

(** [extensions && extensions.length > 0 ? extensions : defaultExtensions] *)
Definition extsToUse (extensions : option (list jsstring))
  : list jsstring :=
  match extensions with
  | Some (e :: l) => e :: l
  | _ => defaultExtensions
  end.

(** The glob pattern for a directory: one extension as it is, several in
    braces. *)
Definition globPattern (sourcePath : jsstring)
    (extensions : option (list jsstring)) : jsstring :=
  let exts := extsToUse extensions in
  let fileExtensions :=
    if 1 <? length exts
    then str "{" ++ join (str ",") exts ++ str "}"
    else to_string (nth 0 (map VString exts) VUndefined) in
  sourcePath ++ str "/**/*." ++ fileExtensions.

(** The loop that keeps the files whose content includes the text; a
    file that cannot be read is passed over. *)
Fixpoint keep_including (fs : filesystem) (text : jsstring)
    (files : list jsstring) : list jsstring :=
  match files with
  | [] => []
  | file :: files' =>
      match readFile fs file with
      | Return content =>
          if includes content text
          then file :: keep_including fs text files'
          else keep_including fs text files'
      | Throw _ => keep_including fs text files'
      end
  end.

Section Files.

(** [fs.existsSync], [stat(...).isDirectory()] (which throws for a path
    that does not exist) and [glob]. *)
Variable existsSync : jsstring -> bool.
Variable isDirectory : jsstring -> outcome bool.
Variable glob : jsstring -> outcome (list jsstring).

Definition getFilePaths (fs : filesystem) (params : IParams)
  : exiting (list jsstring) :=
  if negb (existsSync (promptPath params)) then
    Exit (str "Prompt file not found: " ++ promptPath params)
  else
    let found :=
      match isDirectory (sourcePath params) with
      | Throw _ => Throw (Error [])
      | Return true =>
          glob (globPattern (sourcePath params) (extensions params))
      | Return false => Return [sourcePath params]
      end in
    match found with
    | Throw _ => Exit (str "Invalid path: " ++ sourcePath params)
    | Return files =>
        if truthy (includesText params)
        then Proceed
               (keep_including fs (text_of (includesText params)) files)
        else Proceed files
    end.

End Files.

(** ** main (index.ts) *)

(** The first loop of [main]: the files that still need the
    transformation and those that carry its marker; it throws when a file
    cannot be read. *)
Fixpoint classify (fs : filesystem) (promptName : jsstring)
    (files : list jsstring) : outcome (list jsstring * list jsstring) :=
  match files with
  | [] => Return ([], [])
  | file :: files' =>
      match requiresProcessing fs file promptName with
      | Throw e => Throw e
      | Return needed =>
          match classify fs promptName files' with
          | Throw e => Throw e
          | Return (filesToProcess, filesAlreadyProcessed) =>
              if needed
              then Return (file :: filesToProcess, filesAlreadyProcessed)
              else Return (filesToProcess, file :: filesAlreadyProcessed)
          end
      end
  end.

(** What [main] prints besides the lines of [processFile]. *)
Inductive notice : Type :=
  | AlreadyProcessed (file : jsstring)
  | WillProcess (file : jsstring)
  | DryRun
  | FromFile (l : log).

(** How a run of the script ends. *)
Inductive ending : Type :=
  | Finished
  | Exited (message : jsstring)
  | Rejected (e : error).

Section Main.

Variable basename : jsstring -> jsstring.
Variable existsSync : jsstring -> bool.
Variable isDirectory : jsstring -> outcome bool.
Variable glob : jsstring -> outcome (list jsstring).
Variable extname : jsstring -> jsstring.
Variable create_completion :
  jsstring -> jsstring -> outcome (option jsstring).
Variable date : jsstring.

(** The last loop of [main]: the files are processed one after the
    other, each on the file system the previous one left. *)
Fixpoint process_all (fs : filesystem) (prompt promptName gptModel : jsstring)
    (files : list jsstring) : filesystem * list notice :=
  match files with
  | [] => (fs, [])
  | file :: files' =>
      let '(fs1, out1) :=
        processFile extname create_completion date fs
          file prompt promptName gptModel in
      let '(fs2, out2) :=
        process_all fs1 prompt promptName gptModel files' in
      (fs2, map FromFile out1 ++ out2)
  end.

Definition main (env_model : option jsstring) (argv : list jsstring)
    (fs : filesystem) : filesystem * list notice * ending :=
  match getParams basename env_model argv with
  | Exit m => (fs, [], Exited m)
  | Proceed params =>
      match getFilePaths existsSync isDirectory glob fs params with
      | Exit m => (fs, [], Exited m)
      | Proceed files =>
          match readFile fs (promptPath params) with
          | Throw e => (fs, [], Rejected e)
          | Return prompt =>
              match classify fs (promptName params) files with
              | Throw e => (fs, [], Rejected e)
              | Return (filesToProcess, filesAlreadyProcessed) =>
                  let listed :=
                    map AlreadyProcessed filesAlreadyProcessed ++
                    map WillProcess filesToProcess in
                  if dryRun params
                  then (fs, listed ++ [DryRun], Finished)
                  else
                    let '(fs', out) :=
                      process_all fs prompt (promptName params)
                        (gptModel params) filesToProcess in
                    (fs', listed ++ out, Finished)
              end
          end
      end
  end.

End Main.

(** ** A small world for the examples

    A prompt file and one source file; the source path is a file, the
    endpoint always answers with the text of the first scenario. *)
Definition example_fs : filesystem :=
  {[ str "tidy.review" := str "Tidy up."; str "a.ts" := str "let x = 1;" ]}.

(** The same, with the source file already carrying the marker. *)
Definition example_fs_marked : filesystem :=
  {[ str "tidy.review" := str "Tidy up.";
     str "a.ts" :=
       generateComment (str "tidy") (Some (str "2023-09-30")) ++
       NL :: str "let x = 1;" ]}.

Definition example_main (env_model : option jsstring)
    (argv : list jsstring) (fs : filesystem)
  : filesystem * list notice * ending :=
  main (fun s => s) (fun _ => true) (fun _ => Return false)
    (fun _ => Return []) (fun _ => str ".ts")
    (fun _ _ => Return (Some scenario1)) (str "2023-10-01")
    env_model argv fs.

Definition example_argv : list jsstring :=
  [str "node"; str "index.js"; str "tidy.review"; str "a.ts"].

(* ================================================================= *)
(** * Properties *)

(** ** Strings *)

Lemma startsWith_spec (s t : jsstring) :
  startsWith s t = true <-> t `prefix_of` s.
Proof.
  revert s; induction t as [|b t IH]; intros s; simpl.
  - split; [intros _; apply prefix_nil | done].
  - destruct s as [|a s].
    + split; [done | intros H; by apply prefix_nil_not in H].
    + rewrite andb_true_iff, N.eqb_eq, IH. split.
      * intros [-> H]. by apply prefix_cons.
      * intros H. split.
        -- symmetry. by eapply prefix_cons_inv_1.
        -- by eapply prefix_cons_inv_2.
Qed.

Lemma startsWith_app (t k : jsstring) : startsWith (t ++ k) t = true.
Proof. apply startsWith_spec. by exists k. Qed.

Lemma includes_spec (s t : jsstring) :
  includes s t = true <-> occurs_in t s.
Proof.
  induction s as [|a s IH]; simpl.
  - rewrite orb_false_r, startsWith_spec. split.
    + intros [k ->]. by exists [], k.
    + intros (pre & post & H). symmetry in H.
      apply app_eq_nil in H as [-> H]. apply app_eq_nil in H as [-> ->].
      apply prefix_nil.
  - rewrite orb_true_iff, startsWith_spec, IH. split.
    + intros [[k ->] | (pre & post & ->)].
      * by exists [], k.
      * by exists (a :: pre), post.
    + intros (pre & post & H). destruct pre as [|b pre]; simpl in H.
      * left. by exists post.
      * right. injection H as -> ->. by exists pre, post.
Qed.

Lemma occurs_in_prefix (t u s : jsstring) :
  occurs_in (t ++ u) s -> occurs_in t s.
Proof.
  intros (p & q & ->). exists p, (u ++ q). by rewrite <- !app_assoc.
Qed.

Lemma str_inj (s t : string) : str s = str t -> s = t.
Proof.
  unfold str. intros H.
  rewrite <- (string_of_list_ascii_of_string s),
          <- (string_of_list_ascii_of_string t).
  f_equal. revert H. generalize (list_ascii_of_string s) as l.
  generalize (list_ascii_of_string t) as k.
  intros k l; revert k; induction l as [|a l IH]; intros [|b k] H;
    try done.
  cbn in H. injection H as Hab H. f_equal; [|by apply IH].
  by rewrite <- (ascii_N_embedding a), <- (ascii_N_embedding b), Hab.
Qed.

(** Distinct counts give distinct messages. *)
Lemma number_to_string_inj (n m : nat) :
  number_to_string n = number_to_string m -> n = m.
Proof.
  unfold number_to_string. intros H%str_inj.
  rewrite <- (DecimalNat.Unsigned.of_to n), <- (DecimalNat.Unsigned.of_to m).
  f_equal.
  assert (Some (Nat.to_uint n) = Some (Nat.to_uint m)) as [=]; [|done].
  by rewrite <- !NilEmpty.usu, H.
Qed.

Lemma block_count_error_inj (n m : nat) :
  block_count_error n = block_count_error m -> n = m.
Proof.
  unfold block_count_error. intros [= H].
  by apply number_to_string_inj.
Qed.

(** ** The two repetitions of the fence pattern *)

Lemma skip_tag_spec (s : jsstring) (n : nat) (r : jsstring) :
  skip_tag s = Some (n, r) <->
  exists tag, s = tag ++ NL :: r /\ (NL ∉ tag) /\ length tag = n.
Proof.
  revert n; induction s as [|a s IH]; intros n; simpl.
  - split; [done|]. intros (tag & H & _). by destruct tag.
  - destruct (N.eqb_spec a NL) as [->|Hne].
    + split.
      * intros [= <- <-]. exists []. split_and!; [done| |done].
        apply not_elem_of_nil.
      * intros (tag & H & Hnl & <-). destruct tag as [|b tag]; simpl in H.
        -- by injection H as <-.
        -- injection H as <- _. exfalso. apply Hnl. left.
    + destruct (skip_tag s) as [[n' r']|] eqn:E.
      * split.
        -- intros [= <- <-]. destruct (proj1 (IH n') eq_refl) as (tag & -> & Hnl & <-).
           exists (a :: tag). split_and!; [done| |done].
           rewrite not_elem_of_cons. split; [congruence|done].
        -- intros (tag & H & Hnl & <-). destruct tag as [|b tag]; simpl in H.
           ++ injection H as -> _. done.
           ++ injection H as <- ->. apply not_elem_of_cons in Hnl as [_ Hnl].
              assert (Some (n', r') = Some (length tag, r)) as [= -> ->]; [|done].
              apply IH. by exists tag.
      * split; [done|]. intros (tag & H & Hnl & <-).
        destruct tag as [|b tag]; simpl in H.
        -- injection H as -> _. done.
        -- injection H as <- ->. apply not_elem_of_cons in Hnl as [_ Hnl].
           assert (None = Some (length tag, r)) as [=].
           apply IH. by exists tag.
Qed.

Lemma skip_tag_app (tag r : jsstring) :
  NL ∉ tag -> skip_tag (tag ++ NL :: r) = Some (length tag, r).
Proof. intros H. apply skip_tag_spec. by exists tag. Qed.

(** A newline followed by a fence cannot begin inside a text and end in
    the newline and fence that follow it. *)
Lemma close_not_straddling (body rest : jsstring) :
  startsWith (body ++ NL :: fence ++ rest) (NL :: fence) = true ->
  body = [] \/ occurs_in (NL :: fence) body.
Proof.
  intros H. apply startsWith_spec in H as [k H].
  destruct body as [|b0 [|b1 [|b2 [|b3 body]]]]; simpl in H; [by left|..].
  - discriminate H.
  - discriminate H.
  - discriminate H.
  - right. injection H as -> -> -> -> _. by exists [], body.
Qed.

Lemma find_close_eq (d : bool) (s : jsstring) :
  find_close d s =
  if startsWith s (NL :: fence) then Some 0
  else match s with
       | a :: s' => if dot d a then S <$> find_close d s' else None
       | [] => None
       end.
Proof. by destruct s. Qed.

Lemma find_close_spec (d : bool) (s : jsstring) (k : nat) :
  find_close d s = Some k <->
  exists body rest,
    s = body ++ NL :: fence ++ rest /\ length body = k /\
    (forall c, c ∈ body -> dot d c = true) /\
    ~ occurs_in (NL :: fence) body.
Proof.
  split.
  - revert k; induction s as [|a s IH]; intros k; [done|].
    rewrite find_close_eq.
    destruct (startsWith (a :: s) (NL :: fence)) eqn:E.
    + intros [= <-]. apply startsWith_spec in E as [rest E].
      exists [], rest. split_and!; [done|done| |].
      * intros c Hc. by apply elem_of_nil in Hc.
      * intros (p & q & H). by destruct p.
    + destruct (dot d a) eqn:Ha; [|done].
      destruct (find_close d s) as [k'|] eqn:Ek; [|done].
      intros [= <-]. destruct (IH k' eq_refl) as (body & rest & -> & <- & Hdot & Hmin).
      exists (a :: body), rest. split_and!; [done|done| |].
      * intros c [->|Hc]%elem_of_cons; auto.
      * intros (p & q & H). destruct p as [|b p]; simpl in H.
        -- assert (startsWith ((a :: body) ++ NL :: fence ++ rest) (NL :: fence) = true) as Hs.
           { apply startsWith_spec. exists (q ++ NL :: fence ++ rest).
             by rewrite H. }
           discriminate (eq_trans (eq_sym Hs) E).
        -- injection H as _ ->. apply Hmin. by exists p, q.
  - intros (body & rest & -> & <- & Hdot & Hmin).
    induction body as [|a body IH].
    + reflexivity.
    + assert (startsWith ((a :: body) ++ NL :: fence ++ rest) (NL :: fence) = false) as E.
      { destruct (startsWith _ _) eqn:E; [|done].
        apply close_not_straddling in E as [?|?]; done. }
      rewrite find_close_eq, E.
      cbn [app]. rewrite Hdot by left. rewrite IH; [done| |].
      * intros c Hc. apply Hdot. by right.
      * intros (p & q & ->). apply Hmin. by exists (a :: p), q.
Qed.

(** ** The matcher on the fence pattern *)

Lemma run_lit (c : char) (p : regex) (a : char) (s : jsstring)
    (x : MatchState) :
  run (Lit c :: p) (a :: s) x =
  if N.eqb a c then run p s (advance x) else None.
Proof. reflexivity. Qed.

Lemma run_lit_nil (c : char) (p : regex) (x : MatchState) :
  run (Lit c :: p) [] x = None.
Proof. reflexivity. Qed.

Lemma run_tag (p : regex) (s : jsstring) (x : MatchState) :
  run (Star true not_newline :: Lit NL :: p) s x =
  match skip_tag s with
  | Some (n, r) =>
      run p r (mkState (S n + endIndex x) (group_open x) (group_close x))
  | None => None
  end.
Proof.
  change (run (Star true not_newline :: Lit NL :: p) s x)
    with (star_loop true not_newline (run (Lit NL :: p)) s x).
  revert x; induction s as [|a s IH]; intros x; [done|].
  cbn [star_loop skip_tag]. unfold not_newline.
  rewrite run_lit. destruct (N.eqb a NL); cbn [negb]; [done|].
  rewrite IH. destruct (skip_tag s) as [[n r]|]; [|done].
  cbn [advance endIndex group_open group_close].
  rewrite Nat.add_succ_r. by destruct (run p r _).
Qed.

Lemma run_close (s : jsstring) (x : MatchState) :
  run [GroupClose; Lit NL; Lit BT; Lit BT; Lit BT] s x =
  if startsWith s (NL :: fence)
  then Some (mkState (4 + endIndex x) (group_open x) (Some (endIndex x)))
  else None.
Proof.
  destruct s as [|a [|b [|c [|e s]]]]; cbn;
    repeat (match goal with |- context [N.eqb ?u ?v] =>
              destruct (N.eqb u v) end; cbn); reflexivity.
Qed.

Lemma run_body (d : bool) (s : jsstring) (x : MatchState) :
  run [Star false (dot d); GroupClose; Lit NL; Lit BT; Lit BT; Lit BT] s x =
  (fun k => mkState (4 + k + endIndex x) (group_open x)
              (Some (k + endIndex x))) <$> find_close d s.
Proof.
  change (run [Star false (dot d); GroupClose; Lit NL; Lit BT; Lit BT; Lit BT]
            s x)
    with (star_loop false (dot d)
            (run [GroupClose; Lit NL; Lit BT; Lit BT; Lit BT]) s x).
  revert x; induction s as [|a s IH]; intros x.
  - cbn [star_loop]. by rewrite run_close.
  - cbn [star_loop]. rewrite find_close_eq, run_close.
    destruct (startsWith (a :: s) (NL :: fence)).
    + by destruct (dot d a).
    + destruct (dot d a); [|done].
      rewrite IH. destruct (find_close d s) as [k|]; [|done].
      cbn. by rewrite !Nat.add_succ_r.
Qed.

(** The matcher and the scanners agree on every input. *)
Lemma run_fence (d : bool) (s : jsstring) :
  run (fence_regex d) s initial = scan_block d s.
Proof.
  unfold fence_regex, scan_block.
  destruct s as [|a [|b [|c s]]].
  - done.
  - rewrite run_lit, run_lit_nil. by destruct (N.eqb a BT).
  - rewrite !run_lit, run_lit_nil. by destruct (N.eqb a BT), (N.eqb b BT).
  - rewrite !run_lit.
    destruct (N.eqb a BT); [|done]. destruct (N.eqb b BT); [|done].
    destruct (N.eqb c BT); [|done]. cbn [andb].
    rewrite run_tag. destruct (skip_tag s) as [[n r]|]; [|done].
    change (run (GroupOpen :: ?p) ?s ?x) with (run p s (open_group x)).
    rewrite run_body. destruct (find_close d r) as [k|]; [|done].
    cbn. unfold block_state. f_equal. f_equal; [lia | f_equal; lia | f_equal; lia].
Qed.

Lemma block_text_app (tag body rest : jsstring) :
  block_text tag body ++ rest =
  BT :: BT :: BT :: tag ++ NL :: body ++ NL :: BT :: BT :: BT :: rest.
Proof.
  unfold block_text, fence. cbn. rewrite <- app_assoc. cbn.
  by rewrite <- app_assoc.
Qed.

Lemma block_text_length (tag body : jsstring) :
  length (block_text tag body) = 3 + length tag + 1 + length body + 4.
Proof.
  unfold block_text, fence. cbn. rewrite length_app. cbn.
  rewrite length_app. cbn. lia.
Qed.

(** What a successful attempt looks like, in words. *)
Lemma scan_block_spec (d : bool) (s : jsstring) (x : MatchState) :
  scan_block d s = Some x <->
  exists tag body rest,
    s = block_text tag body ++ rest /\ well_fenced d tag body /\
    x = block_state (length tag) (length body).
Proof.
  unfold scan_block, well_fenced. split.
  - destruct s as [|a [|b [|c s]]]; try done.
    destruct (N.eqb_spec a BT) as [->|]; [|done].
    destruct (N.eqb_spec b BT) as [->|]; [|done].
    destruct (N.eqb_spec c BT) as [->|]; [|done]. cbn [andb].
    destruct (skip_tag s) as [[n r]|] eqn:Et; [|done].
    destruct (find_close d r) as [k|] eqn:Ec; [|done].
    intros [= <-].
    apply skip_tag_spec in Et as (tag & -> & Hnl & <-).
    apply find_close_spec in Ec as (body & rest & -> & <- & Hdot & Hmin).
    exists tag, body, rest. split_and!; try done.
    by rewrite block_text_app.
  - intros (tag & body & rest & -> & (Hnl & Hdot & Hmin) & ->).
    rewrite block_text_app, !N.eqb_refl. cbn [andb].
    rewrite skip_tag_app by done.
    assert (find_close d (body ++ NL :: fence ++ rest) = Some (length body))
      as Hc by (apply find_close_spec; by exists body, rest).
    unfold fence in Hc at 1. cbn [app] in Hc. by rewrite Hc.
Qed.

Lemma run_fence_spec (d : bool) (s : jsstring) (x : MatchState) :
  run (fence_regex d) s initial = Some x <->
  exists tag body rest,
    s = block_text tag body ++ rest /\ well_fenced d tag body /\
    x = block_state (length tag) (length body).
Proof. rewrite run_fence. apply scan_block_spec. Qed.

Lemma run_fence_None (d : bool) (s : jsstring) :
  run (fence_regex d) s initial = None <-> ~ starts_block d s.
Proof.
  split.
  - intros H (tag & body & rest & Hs & Hw).
    assert (run (fence_regex d) s initial =
            Some (block_state (length tag) (length body))) as E.
    { apply run_fence_spec. by exists tag, body, rest. }
    congruence.
  - intros H. destruct (run (fence_regex d) s initial) as [x|] eqn:E; [|done].
    apply run_fence_spec in E as (tag & body & rest & Hs & Hw & _).
    exfalso. apply H. by exists tag, body, rest.
Qed.

(** ** The global match loop *)

Lemma match_loop_eq (r : regex) (s : jsstring) (i lastIndex : nat) :
  match_loop r s i lastIndex =
  if i <? lastIndex then
    match s with
    | [] => []
    | _ :: s' => match_loop r s' (S i) lastIndex
    end
  else
    match run r s initial with
    | Some x =>
        take (endIndex x) s ::
        match s with
        | [] => []
        | _ :: s' =>
            match_loop r s' (S i)
              (if i + endIndex x =? i then S i else i + endIndex x)
        end
    | None =>
        match s with
        | [] => []
        | _ :: s' => match_loop r s' (S i) lastIndex
        end
    end.
Proof. by destruct s. Qed.

(** Only the distance between the index and [lastIndex] matters. *)
Lemma match_loop_shift (r : regex) (s : jsstring) (i lastIndex k : nat) :
  match_loop r s (i + k) (lastIndex + k) = match_loop r s i lastIndex.
Proof.
  revert i lastIndex; induction s as [|a s IH]; intros i lastIndex;
    rewrite (match_loop_eq r _ (i + k)), (match_loop_eq r _ i);
    replace (i + k <? lastIndex + k) with (i <? lastIndex)
      by (destruct (Nat.ltb_spec i lastIndex), (Nat.ltb_spec (i + k) (lastIndex + k)); lia || done).
  - done.
  - destruct (i <? lastIndex).
    + apply (IH (S i)).
    + destruct (run r (a :: s) initial) as [x|]; [|apply (IH (S i))].
      f_equal.
      destruct (Nat.eqb_spec (i + endIndex x) i),
               (Nat.eqb_spec (i + k + endIndex x) (i + k)); try lia.
      * apply (IH (S i) (S i)).
      * replace (i + k + endIndex x) with (i + endIndex x + k) by lia.
        apply (IH (S i)).
Qed.

(** Once the index has reached [lastIndex], its value is irrelevant. *)
Lemma match_loop_caught_up (r : regex) (s : jsstring) (i lastIndex : nat) :
  lastIndex <= i -> match_loop r s i lastIndex = match_loop r s 0 0.
Proof.
  intros H. transitivity (match_loop r s i i).
  - revert i lastIndex H; induction s as [|a s IH]; intros i lastIndex H;
      rewrite (match_loop_eq r _ i lastIndex), (match_loop_eq r _ i i);
      rewrite Nat.ltb_irrefl;
      replace (i <? lastIndex) with false
        by (destruct (Nat.ltb_spec i lastIndex); lia || done).
    + done.
    + destruct (run r (a :: s) initial); [done|].
      rewrite (IH (S i) lastIndex), (IH (S i) i) by lia. done.
  - apply (match_loop_shift r s 0 0 i).
Qed.

(** The indices below [lastIndex] are stepped over. *)
Lemma match_loop_skip (r : regex) (s : jsstring) (n : nat) :
  n <= length s -> match_loop r s 0 n = match_loop r (drop n s) 0 0.
Proof.
  revert s; induction n as [|n IH]; intros s H; [done|].
  destruct s as [|a s]; cbn in H; [lia|].
  rewrite match_loop_eq. cbn [Nat.ltb Nat.leb drop].
  transitivity (match_loop r s (0 + 1) (n + 1)); [f_equal; lia|].
  rewrite match_loop_shift. apply IH. lia.
Qed.

Lemma matches_nil (d : bool) : matches d [] = [].
Proof. reflexivity. Qed.

(** A position where no match begins is passed over. *)
Lemma matches_skip (d : bool) (a : char) (s : jsstring) :
  ~ starts_block d (a :: s) -> matches d (a :: s) = matches d s.
Proof.
  intros H. apply run_fence_None in H. unfold matches.
  rewrite match_loop_eq, H. cbn. apply match_loop_caught_up. lia.
Qed.

(** A match is recorded and the search goes on behind it. *)
Lemma matches_block (d : bool) (tag body rest : jsstring) :
  well_fenced d tag body ->
  matches d (block_text tag body ++ rest) =
  block_text tag body :: matches d rest.
Proof.
  intros Hw.
  assert (run (fence_regex d) (block_text tag body ++ rest) initial =
          Some (block_state (length tag) (length body))) as E.
  { apply run_fence_spec. by exists tag, body, rest. }
  pose proof (block_text_length tag body) as Hlen.
  unfold matches. rewrite match_loop_eq, E.
  cbn [Nat.ltb Nat.leb block_state endIndex].
  rewrite <- Hlen. f_equal.
  - by rewrite take_app_length.
  - destruct (block_text tag body) as [|a m] eqn:Em; [cbn in Hlen; lia|].
    cbn [app length]. cbn [Nat.add Nat.eqb].
    transitivity (match_loop (fence_regex d) (m ++ rest) (0 + 1)
                    (length m + 1)); [f_equal; lia|].
    rewrite match_loop_shift.
    rewrite match_loop_skip by (rewrite length_app; lia).
    by rewrite drop_app_length.
Qed.

(** ** The first match *)

Lemma exec_skip (d : bool) (a : char) (s : jsstring) :
  ~ starts_block d (a :: s) ->
  exec (fence_regex d) (a :: s) = exec (fence_regex d) s.
Proof. intros H. apply run_fence_None in H. cbn [exec]. by rewrite H. Qed.

Lemma exec_block (d : bool) (tag body rest : jsstring) :
  well_fenced d tag body ->
  exec (fence_regex d) (block_text tag body ++ rest) =
  Some [VString (block_text tag body); VString body].
Proof.
  intros Hw.
  assert (run (fence_regex d) (block_text tag body ++ rest) initial =
          Some (block_state (length tag) (length body))) as E.
  { apply run_fence_spec. by exists tag, body, rest. }
  destruct (block_text tag body ++ rest) as [|a s] eqn:Es.
  { rewrite block_text_app in Es. discriminate Es. }
  cbn [exec]. rewrite E, <- Es. unfold match_array, block_state.
  cbn [endIndex group_open group_close].
  rewrite <- block_text_length, take_app_length. do 3 f_equal.
  replace (3 + length tag + 1 + length body - (3 + length tag + 1))
    with (length body) by lia.
  replace (3 + length tag + 1) with (length (fence ++ tag ++ [NL]))
    by (rewrite !length_app; cbn; lia).
  unfold block_text.
  replace ((fence ++ tag ++ NL :: body ++ NL :: fence) ++ rest)
    with ((fence ++ tag ++ [NL]) ++ body ++ NL :: fence ++ rest)
    by (rewrite <- !app_assoc; cbn; by rewrite <- !app_assoc).
  by rewrite drop_app_length, take_app_length.
Qed.

(** ** The leftmost match

    A block is the leftmost match of a text when it is well formed and no
    match begins in front of it. *)

Lemma starts_block_fence (d : bool) (s : jsstring) :
  starts_block d s -> fence `prefix_of` s.
Proof.
  intros (tag & body & rest & -> & _). rewrite block_text_app.
  by eexists.
Qed.

Lemma starts_block_nil (d : bool) : ~ starts_block d [].
Proof. intros [k H]%starts_block_fence. discriminate H. Qed.

Lemma starts_block_dec (d : bool) (s : jsstring) :
  starts_block d s \/ ~ starts_block d s.
Proof.
  destruct (run (fence_regex d) s initial) as [x|] eqn:E.
  - left. apply run_fence_spec in E as (tag & body & rest & ? & ? & _).
    by exists tag, body, rest.
  - right. by apply run_fence_None.
Qed.

Lemma matches_none (d : bool) (s : jsstring) :
  (forall pre s', s = pre ++ s' -> ~ starts_block d s') ->
  matches d s = [].
Proof.
  induction s as [|a s IH]; intros H; [done|].
  rewrite matches_skip by (by apply (H [])).
  apply IH. intros pre s' ->. by apply (H (a :: pre)).
Qed.

Lemma exec_none (d : bool) (s : jsstring) :
  (forall pre s', s = pre ++ s' -> ~ starts_block d s') ->
  exec (fence_regex d) s = None.
Proof.
  induction s as [|a s IH]; intros H.
  - cbn [exec]. assert (run (fence_regex d) [] initial = None) as ->; [|done].
    apply run_fence_None, starts_block_nil.
  - rewrite exec_skip by (by apply (H [])).
    apply IH. intros pre s' ->. by apply (H (a :: pre)).
Qed.

Lemma matches_leftmost (d : bool) (pre tag body rest : jsstring) :
  well_fenced d tag body ->
  (forall p1 p2, pre = p1 ++ p2 -> p2 <> [] ->
     ~ starts_block d (p2 ++ block_text tag body ++ rest)) ->
  matches d (pre ++ block_text tag body ++ rest) =
  block_text tag body :: matches d rest.
Proof.
  intros Hw. induction pre as [|a pre IH]; intros Hl.
  - by apply matches_block.
  - cbn [app]. rewrite matches_skip by (by apply (Hl [] (a :: pre))).
    apply IH. intros p1 p2 -> Hp. by apply (Hl (a :: p1) p2).
Qed.

Lemma exec_leftmost (d : bool) (pre tag body rest : jsstring) :
  well_fenced d tag body ->
  (forall p1 p2, pre = p1 ++ p2 -> p2 <> [] ->
     ~ starts_block d (p2 ++ block_text tag body ++ rest)) ->
  exec (fence_regex d) (pre ++ block_text tag body ++ rest) =
  Some [VString (block_text tag body); VString body].
Proof.
  intros Hw. induction pre as [|a pre IH]; intros Hl.
  - by apply exec_block.
  - cbn [app]. rewrite exec_skip by (by apply (Hl [] (a :: pre))).
    apply IH. intros p1 p2 -> Hp. by apply (Hl (a :: p1) p2).
Qed.

(** Every text either holds no match at all or splits at its leftmost
    match. *)
Lemma leftmost_split (d : bool) (s : jsstring) :
  (forall pre s', s = pre ++ s' -> ~ starts_block d s') \/
  exists pre tag body rest,
    s = pre ++ block_text tag body ++ rest /\
    well_fenced d tag body /\
    (forall p1 p2, pre = p1 ++ p2 -> p2 <> [] ->
       ~ starts_block d (p2 ++ block_text tag body ++ rest)).
Proof.
  induction s as [|a s IH].
  - left. intros pre s' H. symmetry in H. apply app_eq_nil in H as [_ ->].
    apply starts_block_nil.
  - destruct (starts_block_dec d (a :: s)) as [(tag & body & rest & E & Hw)|Hn].
    + right. exists [], tag, body, rest. split_and!; [done|done|].
      intros p1 p2 H Hp. symmetry in H. by apply app_eq_nil in H as [_ ->].
    + destruct IH as [IH|(pre & tag & body & rest & -> & Hw & Hl)].
      * left. intros pre s' H. destruct pre as [|b pre]; cbn in H.
        -- by subst s'.
        -- injection H as _ ->. by eapply IH.
      * right. exists (a :: pre), tag, body, rest. split_and!; [done|done|].
        intros p1 p2 H Hp. destruct p1 as [|b p1]; cbn in H.
        -- by subst p2.
        -- injection H as _ ->. by eapply Hl.
Qed.

(** ** The matches of the loop are the blocks of the text *)

Lemma blocks_matches (d : bool) (s : jsstring) (l : list jsstring) :
  blocks d s l -> matches d s = l.
Proof.
  induction 1 as [s H|pre tag body rest l Hw Hl _ IH].
  - by apply matches_none.
  - rewrite matches_leftmost by done. by rewrite IH.
Qed.

Lemma matches_blocks (d : bool) (s : jsstring) : blocks d s (matches d s).
Proof.
  remember (length s) as n eqn:Hn. revert s Hn.
  induction n as [n IH] using lt_wf_ind. intros s ->.
  destruct (leftmost_split d s) as [H|(pre & tag & body & rest & -> & Hw & Hl)].
  - rewrite matches_none by done. by constructor.
  - rewrite matches_leftmost by done. constructor; [done|done|].
    eapply IH; [|done]. rewrite !length_app, block_text_length. lia.
Qed.

Lemma blocks_iff (d : bool) (s : jsstring) (l : list jsstring) :
  blocks d s l <-> l = matches d s.
Proof.
  split; [intros H; symmetry; by apply blocks_matches|].
  intros ->. apply matches_blocks.
Qed.

(** The global and the non-global search succeed together, and the
    non-global one always fills its capture group. *)
Lemma exec_matches (d : bool) (s : jsstring) :
  (matches d s = [] /\ exec (fence_regex d) s = None) \/
  exists m body l,
    matches d s = m :: l /\
    exec (fence_regex d) s = Some [VString m; VString body].
Proof.
  destruct (leftmost_split d s) as [H|(pre & tag & body & rest & -> & Hw & Hl)].
  - left. split; [by apply matches_none | by apply exec_none].
  - right. exists (block_text tag body), body, (matches d rest).
    split; [by apply matches_leftmost | by apply exec_leftmost].
Qed.

(** ** extractCodeBlock, case by case *)

Lemma match_global_matches (d : bool) (s : jsstring) :
  match_global (fence_regex d) s =
  match matches d s with [] => None | l => Some l end.
Proof. reflexivity. Qed.

Lemma observed_count_matches (d : bool) (s : jsstring) :
  observed_count (match_global (fence_regex d) s) = length (matches d s).
Proof. rewrite match_global_matches. by destruct (matches d s). Qed.

Lemma Dist_extract_cases (s : jsstring) :
  (length (matches true s) <> 1 /\
   Dist.extractCodeBlock s =
   Throw (block_count_error (length (matches true s)))) \/
  (exists m body,
     matches true s = [m] /\
     match_first (fence_regex true) s = Some [VString m; VString body] /\
     Dist.extractCodeBlock s = Return (VString body)).
Proof.
  unfold Dist.extractCodeBlock, match_first.
  rewrite observed_count_matches, match_global_matches.
  destruct (exec_matches true s) as [[-> ->]|(m & body & l & -> & ->)].
  - left. by split.
  - destruct l as [|m' l].
    + right. by exists m, body.
    + left. by split.
Qed.

Lemma Draft_extract_cases (s : jsstring) :
  (length (matches false s) <> 1 /\
   Draft.extractCodeBlock s =
   Throw (block_count_error (length (matches false s)))) \/
  (exists m body,
     matches false s = [m] /\
     match_first (fence_regex false) s = Some [VString m; VString body] /\
     Draft.extractCodeBlock s = Return (VString body)).
Proof.
  unfold Draft.extractCodeBlock, match_first.
  rewrite observed_count_matches, match_global_matches.
  destruct (exec_matches false s) as [[-> ->]|(m & body & l & -> & ->)].
  - left. by split.
  - destruct l as [|m' l].
    + right. by exists m, body.
    + left. by split.
Qed.

(** A text in which no fence occurs holds no match. *)
Lemma no_fence_no_block (d : bool) (s : jsstring) :
  ~ occurs_in fence s ->
  forall pre s', s = pre ++ s' -> ~ starts_block d s'.
Proof.
  intros H pre s' -> [k ->]%starts_block_fence. apply H. by exists pre, k.
Qed.


(** A successful match sits in the text with its newlines. *)
Lemma matches_cons_shape (d : bool) (s m : jsstring) (l : list jsstring) :
  matches d s = m :: l ->
  exists pre tag body post,
    s = pre ++ block_text tag body ++ post /\ m = block_text tag body /\
    well_fenced d tag body /\
    exec (fence_regex d) s = Some [VString m; VString body].
Proof.
  intros E.
  destruct (leftmost_split d s) as [H|(pre & tag & body & rest & -> & Hw & Hl)].
  - rewrite matches_none in E by done. discriminate E.
  - rewrite matches_leftmost in E by done. injection E as <- _.
    exists pre, tag, body, rest. split_and!; try done.
    by apply exec_leftmost.
Qed.


(* ================================================================= *)
(** * The claims *)

(** C1: for every input, [extractCodeBlock] throws exactly when the number
    of non-overlapping matches of the fence pattern (an opening fence with
    an optional tag and a newline, minimal content, a newline and a
    closing fence) is not one; the error then carries that number; and a
    text in which no fence occurs always fails with count 0. *)
Theorem extractCodeBlock_throws_iff_count_not_one (s : jsstring) :
  exists l,
    blocks true s l /\
    (forall l', blocks true s l' -> l' = l) /\
    ((exists e, Dist.extractCodeBlock s = Throw e) <-> length l <> 1) /\
    (length l <> 1 ->
       Dist.extractCodeBlock s = Throw (block_count_error (length l))) /\
    (length l = 1 ->
       exists code, Dist.extractCodeBlock s = Return (VString code)) /\
    (~ occurs_in fence s ->
       l = [] /\ Dist.extractCodeBlock s = Throw (block_count_error 0)).
Proof.
  exists (matches true s). split_and!.
  - apply matches_blocks.
  - intros l' H. symmetry. by apply blocks_matches.
  - destruct (Dist_extract_cases s) as [[Hn ->]|(m & body & E & _ & ->)].
    + split; [done|]. intros _. by eexists.
    + rewrite E. split; [by intros [e ?]|done].
  - destruct (Dist_extract_cases s) as [[Hn ->]|(m & body & E & _ & ->)];
      [done|]. by rewrite E.
  - destruct (Dist_extract_cases s) as [[Hn ->]|(m & body & E & _ & ->)];
      [done|]. intros _. by eexists.
  - intros H.
    assert (matches true s = []) as E
      by (apply matches_none; by apply no_fence_no_block).
    split; [done|].
    destruct (Dist_extract_cases s) as [[Hn ->]|(m & body & E' & _ & _)];
      [by rewrite E | congruence].
Qed.




(** ** The marker *)

Lemma generateComment_dated (name d : jsstring) :
  d <> [] ->
  generateComment name (Some d) =
  generateComment name None ++ str " on " ++ d.
Proof. by destruct d. Qed.

Lemma includes_length (s t : jsstring) :
  includes s t = true -> length t <= length s.
Proof.
  intros (pre & post & ->)%includes_spec. rewrite !length_app. lia.
Qed.

(** C3, as stated: the dated form is returned for every date that is
    passed.  It fails for the empty date, which [if (date)] treats as
    absent. *)
Lemma generateComment_empty_date_counterexample :
  ~ (forall name d : jsstring,
       name <> [] ->
       generateComment name (Some d) =
       str "// performed " ++ QUOTE :: name ++ QUOTE :: str " review"
       ++ str " on " ++ d).
Proof.
  intros H. specialize (H (str "example") [] ltac:(discriminate)).
  vm_compute in H. discriminate H.
Qed.

(** C3, amended: for every name, [generateComment] returns
    [// performed "<name>" review] when the date is absent or empty and
    [// performed "<name>" review on <date>] when the date is present and
    not empty; the name is copied as it is, so [a.b.c] keeps its dots. *)
Theorem generateComment_format (name d : jsstring) :
  d <> [] ->
  generateComment name None =
    str "// performed " ++ QUOTE :: name ++ QUOTE :: str " review" /\
  generateComment name (Some []) =
    str "// performed " ++ QUOTE :: name ++ QUOTE :: str " review" /\
  generateComment name (Some d) =
    str "// performed " ++ QUOTE :: name ++ QUOTE :: str " review"
    ++ str " on " ++ d /\
  generateComment (str "a.b.c") None =
    str "// performed " ++ QUOTE :: str "a.b.c" ++ QUOTE :: str " review".
Proof.
  intros Hd. split_and!; try reflexivity.
  rewrite generateComment_dated by done. unfold generateComment. cbn.
  by rewrite <- !app_assoc.
Qed.

Lemma generateComment_format_witness :
  generateComment (str "example") None =
    str "// performed " ++ QUOTE :: str "example" ++ QUOTE :: str " review" /\
  generateComment (str "example") (Some (str "2023-10-01")) =
    str "// performed " ++ QUOTE :: str "example" ++ QUOTE :: str " review"
    ++ str " on " ++ str "2023-10-01".
Proof.
  destruct (generateComment_format (str "example") (str "2023-10-01")
              ltac:(discriminate)) as (H1 & _ & H2 & _).
  exact (conj H1 H2).
Defined.

(** C4, as stated: the dateless marker is not found in a text that holds
    only the dated marker.  It is found there. *)
Lemma dateless_marker_found_counterexample :
  ~ (forall name date : jsstring,
       includes (generateComment name (Some date))
                (generateComment name None) = false).
Proof.
  intros H. specialize (H (str "example") (str "2023-10-01")).
  vm_compute in H. discriminate H.
Qed.

(** C4, amended: for every name and date, the dateless marker is found in
    every text that holds the dated marker, so a search for the dateless
    marker does not tell them apart; a search for the dated marker does:
    with a non-empty date it is not found in the dateless marker. *)
Theorem dateless_marker_found_in_dated (name date pre post : jsstring) :
  includes (pre ++ generateComment name (Some date) ++ post)
           (generateComment name None) = true /\
  (date <> [] ->
   includes (generateComment name None)
            (generateComment name (Some date)) = false).
Proof.
  split.
  - apply includes_spec. destruct date as [|c date].
    + by exists pre, post.
    + rewrite generateComment_dated by done.
      exists pre, ((str " on " ++ c :: date) ++ post).
      by rewrite <- !app_assoc.
  - intros Hd. rewrite generateComment_dated by done.
    destruct (includes _ _) eqn:E; [|done].
    apply includes_length in E. rewrite !length_app in E. cbn in E. lia.
Qed.

Lemma dateless_marker_found_in_dated_witness :
  includes (str "// header" ++ NL ::
            generateComment (str "example") (Some (str "2023-10-01")) ++
            NL :: str "code")
           (generateComment (str "example") None) = true /\
  includes (generateComment (str "example") None)
           (generateComment (str "example") (Some (str "2023-10-01"))) = false.
Proof.
  destruct (dateless_marker_found_in_dated (str "example") (str "2023-10-01")
              (str "// header" ++ [NL]) (NL :: str "code")) as [H1 H2].
  split; [exact H1 | apply H2; discriminate].
Defined.

(** C8: for every name and every non-empty date, the dateless marker is a
    strict prefix of the dated one (the dated marker is the dateless one
    followed by [ on ] and the date); so every file content that holds the
    dated marker holds the dateless one, and [requiresProcessing], which
    searches for the dateless marker, answers [false] for it. *)
Theorem dateless_marker_prefix_of_dated
    (name date : jsstring) (fs : gmap (list N) (list N))
    (filePath fileContent : jsstring) :
  date <> [] ->
  fs !! filePath = Some fileContent ->
  includes fileContent (generateComment name (Some date)) = true ->
  generateComment name (Some date) =
    generateComment name None ++ str " on " ++ date /\
  generateComment name None <> generateComment name (Some date) /\
  includes fileContent (generateComment name None) = true /\
  requiresProcessing fs filePath name = Return false.
Proof.
  intros Hd Hfs Hc.
  assert (includes fileContent (generateComment name None) = true) as Hi.
  { rewrite generateComment_dated in Hc by done.
    apply includes_spec. apply includes_spec in Hc. by eapply occurs_in_prefix. }
  split_and!.
  - by apply generateComment_dated.
  - rewrite generateComment_dated by done. intros H.
    apply (f_equal length) in H. rewrite !length_app in H. cbn in H. lia.
  - done.
  - unfold requiresProcessing, readFile. by rewrite Hfs, Hi.
Qed.

Lemma dateless_marker_prefix_of_dated_witness :
  requiresProcessing
    {[ str "a.ts" :=
         generateComment (str "example") (Some (str "2023-10-01")) ++
         NL :: str "let x = 1;" ]}
    (str "a.ts") (str "example") = Return false.
Proof.
  refine (proj2 (proj2 (proj2
    (dateless_marker_prefix_of_dated (str "example") (str "2023-10-01")
       _ (str "a.ts") _ _ _ _)))).
  - discriminate.
  - apply lookup_singleton_eq.
  - vm_compute. reflexivity.
Defined.


(** A text without a newline before a fence, or without a newline behind
    any fence, holds no match. *)
Lemma unframed_no_block (d : bool) (s : jsstring) :
  ~ occurs_in (NL :: fence) s \/
  (forall pre post, s = pre ++ fence ++ post -> NL ∉ post) ->
  matches d s = [].
Proof.
  intros H. apply matches_none.
  intros pre s' -> (tag & body & rest & -> & _).
  destruct H as [H|H].
  - apply H. exists (pre ++ fence ++ tag ++ NL :: body), rest.
    unfold block_text. rewrite <- !app_assoc. cbn. f_equal. f_equal.
    by rewrite <- !app_assoc.
  - apply (H pre (tag ++ NL :: body ++ NL :: fence ++ rest)).
    + unfold block_text. rewrite <- !app_assoc. cbn. do 5 f_equal.
      by rewrite <- !app_assoc.
    + apply elem_of_app. right. left.
Qed.



(** C6: on the text [Here is some text], newline, the opening fence
    with the tag [typescript], newline, [code block], newline, the closing
    fence, newline, [More text], [extractCodeBlock] returns exactly
    [code block]. *)
Theorem extractCodeBlock_scenario1 :
  Dist.extractCodeBlock scenario1 = Return (VString (str "code block")) /\
  Draft.extractCodeBlock scenario1 = Return (VString (str "code block")).
Proof. split; vm_compute; reflexivity. Qed.

(** C7: when [extractCodeBlock] throws on the response obtained for a
    file, [processFile] leaves the file system as it found it, so the file
    keeps its content; and whenever [processFile] does change the file
    system, extraction had returned a value and the file was overwritten
    with the marker, a newline and that value. *)
Theorem processFile_writes_only_after_extraction
    (extname : jsstring -> jsstring)
    (create_completion : jsstring -> jsstring -> outcome (option jsstring))
    (date : jsstring) (fs : gmap (list N) (list N))
    (filePath prompt promptName gptModel : jsstring) :
  (forall fileContent content e,
     fs !! filePath = Some fileContent ->
     create_completion gptModel
       (completion_input prompt (remove_first DOT (extname filePath))
          fileContent) = Return content ->
     Dist.extractCodeBlock (default [] content) = Throw e ->
     (processFile extname create_completion date fs
        filePath prompt promptName gptModel).1 = fs /\
     (processFile extname create_completion date fs
        filePath prompt promptName gptModel).1 !! filePath
       = Some fileContent) /\
  ((processFile extname create_completion date fs
      filePath prompt promptName gptModel).1 <> fs ->
   exists fileContent content code,
     fs !! filePath = Some fileContent /\
     create_completion gptModel
       (completion_input prompt (remove_first DOT (extname filePath))
          fileContent) = Return content /\
     Dist.extractCodeBlock (default [] content) = Return code /\
     (processFile extname create_completion date fs
        filePath prompt promptName gptModel).1 =
     <[filePath := generateComment promptName (Some date) ++ [NL] ++
                   to_string code]> fs).
Proof.
  unfold processFile, readFile, writeFile. split.
  - intros fileContent content e Hfs Hc He. rewrite Hfs.
    destruct (includes fileContent _); [done|].
    by rewrite Hc, He.
  - destruct (fs !! filePath) as [fileContent|]; [|done].
    destruct (includes fileContent _); [done|].
    destruct (create_completion gptModel _) as [content|] eqn:Hc; [|done].
    destruct (Dist.extractCodeBlock (default [] content)) as [code|] eqn:He;
      [|done].
    intros _. by exists fileContent, content, code.
Qed.

Lemma processFile_writes_only_after_extraction_witness :
  (processFile (fun _ => str ".ts")
     (fun _ _ => Return (Some (str "Sorry, I cannot help with that.")))
     (str "2023-10-01") {[ str "a.ts" := str "let x = 1;" ]}
     (str "a.ts") (str "Tidy up.") (str "example") (str "gpt-4o-mini")).1
  = {[ str "a.ts" := str "let x = 1;" ]}.
Proof.
  refine (proj1 (proj1
    (processFile_writes_only_after_extraction (fun _ => str ".ts")
       (fun _ _ => Return (Some (str "Sorry, I cannot help with that.")))
       (str "2023-10-01") {[ str "a.ts" := str "let x = 1;" ]}
       (str "a.ts") (str "Tidy up.") (str "example") (str "gpt-4o-mini"))
    (str "let x = 1;") (Some (str "Sorry, I cannot help with that."))
    (block_count_error 0) _ _ _)).
  - apply lookup_singleton_eq.
  - reflexivity.
  - vm_compute. reflexivity.
Defined.

(** C9: whenever the global search yields exactly one match, the
    non-global search succeeds and its capture group is filled.  So the
    failure branch never reports the count 1, the branch that returns
    [null] is never taken, and the function either throws a block-count
    error (with a count other than 1) or returns a string. *)
Theorem single_match_fills_capture_group :
  (forall (dotAll : bool) (s m : jsstring),
     match_global (fence_regex dotAll) s = Some [m] ->
     exists body,
       match_first (fence_regex dotAll) s =
       Some [VString m; VString body]) /\
  (forall s : jsstring,
     Dist.extractCodeBlock s <> Throw (block_count_error 1) /\
     Draft.extractCodeBlock s <> Throw (block_count_error 1) /\
     Draft.extractCodeBlock s <> Return VNull) /\
  (forall s : jsstring,
     (exists n, n <> 1 /\
        Dist.extractCodeBlock s = Throw (block_count_error n)) \/
     (exists code, Dist.extractCodeBlock s = Return (VString code))) /\
  (forall s : jsstring,
     (exists n, n <> 1 /\
        Draft.extractCodeBlock s = Throw (block_count_error n)) \/
     (exists code, Draft.extractCodeBlock s = Return (VString code))).
Proof.
  split_and!.
  - intros d s m H. rewrite match_global_matches in H.
    destruct (matches d s) as [|m' l] eqn:E; [done|].
    injection H as -> ->.
    apply matches_cons_shape in E as (_ & _ & body & _ & _ & _ & _ & Hx).
    by exists body.
  - intros s.
    destruct (Dist_extract_cases s) as [[Hn ->]|(m & body & _ & _ & ->)],
             (Draft_extract_cases s) as [[Hn' ->]|(m' & body' & _ & _ & ->)];
      split_and!; try done;
      intros [= H%number_to_string_inj]; done.
  - intros s.
    destruct (Dist_extract_cases s) as [[Hn E]|(m & body & _ & _ & E)].
    + left. by eexists.
    + right. by eexists.
  - intros s.
    destruct (Draft_extract_cases s) as [[Hn E]|(m & body & _ & _ & E)].
    + left. by eexists.
    + right. by eexists.
Qed.

(** C10: the text made of the lines fence, [a], fence, [prose], fence has
    three lines that begin with a fence, yet [extractCodeBlock] returns
    the content [a] of the first block: only the complete match of an
    opening and a closing fence is counted, and the fence left over at the
    end does not raise the count. *)
Theorem extractCodeBlock_ignores_unpaired_fence :
  fence_line_count three_fence_lines = 3 /\
  matches true three_fence_lines = [str "```" ++ NL :: str "a" ++ NL :: str "```"] /\
  Dist.extractCodeBlock three_fence_lines = Return (VString (str "a")) /\
  Draft.extractCodeBlock three_fence_lines = Return (VString (str "a")).
Proof. split_and!; vm_compute; reflexivity. Qed.

(** ** Further checks against the tests of the repository *)

(** Scenario 2: a text without a code block fails with count 0. *)
Lemma extractCodeBlock_scenario2 :
  Dist.extractCodeBlock (str "Just some text without code") =
  Throw (block_count_error 0).
Proof. vm_compute. reflexivity. Qed.

(** Scenario 3: a text with two blocks fails with count 2. *)
Lemma extractCodeBlock_scenario3 :
  Dist.extractCodeBlock two_blocks = Throw (block_count_error 2).
Proof. vm_compute. reflexivity. Qed.

(** The earlier revision, whose [.] stops at a line terminator, finds no
    block when the content has more than one line. *)
Lemma Draft_extractCodeBlock_multiline :
  Dist.extractCodeBlock padded_block =
    Return (VString (str "  a" ++ NL :: NL :: str " b  ")) /\
  Draft.extractCodeBlock padded_block = Throw (block_count_error 0).
Proof. split; vm_compute; reflexivity. Qed.

(** The earlier revision of [generateComment] cuts the name at its first
    dot; the current one does not. *)
Lemma Draft_generateComment_multiple_dots :
  Draft_comment.generateComment (str "example.test.txt") None =
    str "// performed " ++ QUOTE :: str "example" ++ QUOTE :: str " review" /\
  generateComment (str "example.test.txt") None =
    str "// performed " ++ QUOTE :: str "example.test.txt" ++ QUOTE ::
    str " review".
Proof. split; vm_compute; reflexivity. Qed.

(* ================================================================= *)
(** * Further properties of the extractor *)

(** A text holds no match exactly when no position of it begins one. *)
Lemma matches_nil_iff (d : bool) (s : jsstring) :
  matches d s = [] <->
  (forall pre s', s = pre ++ s' -> ~ starts_block d s').
Proof.
  split; [|apply matches_none].
  destruct (leftmost_split d s) as [H|(pre & tag & body & rest & -> & Hw & Hl)];
    [done|].
  rewrite matches_leftmost by done. discriminate.
Qed.

(** What a returned value is, for either revision: the content of the
    leftmost block, behind which no further block begins. *)
Lemma extract_return_shape (d : bool) (s : jsstring) (v : value) :
  (if d then Dist.extractCodeBlock s else Draft.extractCodeBlock s)
    = Return v ->
  exists pre tag body rest,
    s = pre ++ block_text tag body ++ rest /\
    v = VString body /\
    well_fenced d tag body /\
    (forall p1 p2, pre = p1 ++ p2 -> p2 <> [] ->
       ~ starts_block d (p2 ++ block_text tag body ++ rest)) /\
    matches d rest = [].
Proof.
  intros Hv.
  assert (exists m body,
            matches d s = [m] /\
            match_first (fence_regex d) s = Some [VString m; VString body] /\
            v = VString body) as (m & body & Em & Hf & ->).
  { destruct d.
    - destruct (Dist_extract_cases s) as [[_ E]|(m & body & Em & Hf & E)];
        rewrite E in Hv; [discriminate Hv|]. injection Hv as <-.
      by exists m, body.
    - destruct (Draft_extract_cases s) as [[_ E]|(m & body & Em & Hf & E)];
        rewrite E in Hv; [discriminate Hv|]. injection Hv as <-.
      by exists m, body. }
  destruct (leftmost_split d s) as [H|(pre & tag & body' & rest & -> & Hw & Hl)].
  { rewrite matches_none in Em by done. discriminate Em. }
  rewrite matches_leftmost in Em by done. injection Em as _ Er.
  unfold match_first in Hf. rewrite exec_leftmost in Hf by done.
  injection Hf as Hb. subst body'.
  exists pre, tag, body, rest. by split_and!.
Qed.

(** And the other way round. *)
Lemma extract_return_of_shape (d : bool) (pre tag body rest : jsstring) :
  well_fenced d tag body ->
  (forall p1 p2, pre = p1 ++ p2 -> p2 <> [] ->
     ~ starts_block d (p2 ++ block_text tag body ++ rest)) ->
  matches d rest = [] ->
  (if d then Dist.extractCodeBlock (pre ++ block_text tag body ++ rest)
   else Draft.extractCodeBlock (pre ++ block_text tag body ++ rest))
    = Return (VString body).
Proof.
  intros Hw Hl Hr.
  assert (matches d (pre ++ block_text tag body ++ rest) =
          [block_text tag body]) as Em
    by (rewrite matches_leftmost by done; by rewrite Hr).
  destruct d.
  - destruct (Dist_extract_cases (pre ++ block_text tag body ++ rest))
      as [[Hn _]|(m & body' & _ & Hf & ->)]; [by rewrite Em in Hn|].
    unfold match_first in Hf. rewrite exec_leftmost in Hf by done.
    by injection Hf as _ ->.
  - destruct (Draft_extract_cases (pre ++ block_text tag body ++ rest))
      as [[Hn _]|(m & body' & _ & Hf & ->)]; [by rewrite Em in Hn|].
    unfold match_first in Hf. rewrite exec_leftmost in Hf by done.
    by injection Hf as _ ->.
Qed.

Lemma extract_throw_count (d : bool) (s : jsstring) (n : nat) :
  (if d then Dist.extractCodeBlock s else Draft.extractCodeBlock s)
    = Throw (block_count_error n) ->
  n = length (matches d s).
Proof.
  intros H. destruct d.
  - destruct (Dist_extract_cases s) as [[_ E]|(m & body & _ & _ & E)];
      rewrite E in H; [|discriminate H].
    injection H as H%number_to_string_inj. done.
  - destruct (Draft_extract_cases s) as [[_ E]|(m & body & _ & _ & E)];
      rewrite E in H; [|discriminate H].
    injection H as H%number_to_string_inj. done.
Qed.

Lemma extract_no_match (d : bool) (s : jsstring) :
  matches d s = [] ->
  (if d then Dist.extractCodeBlock s else Draft.extractCodeBlock s)
    = Throw (block_count_error 0).
Proof.
  intros E. destruct d.
  - destruct (Dist_extract_cases s) as [[_ ->]|(m & body & Em & _)];
      [by rewrite E | congruence].
  - destruct (Draft_extract_cases s) as [[_ ->]|(m & body & Em & _)];
      [by rewrite E | congruence].
Qed.

(** X1: the code either revision returns never holds a newline followed
    by a fence; so feeding the returned code back to the extractor always
    fails with count 0. *)
Theorem extracted_code_holds_no_block (s code : jsstring) :
  Dist.extractCodeBlock s = Return (VString code) \/
  Draft.extractCodeBlock s = Return (VString code) ->
  ~ occurs_in (NL :: fence) code /\
  Dist.extractCodeBlock code = Throw (block_count_error 0) /\
  Draft.extractCodeBlock code = Throw (block_count_error 0).
Proof.
  intros H.
  assert (~ occurs_in (NL :: fence) code) as Hn.
  { destruct H as [H|H].
    - apply (extract_return_shape true) in H
        as (pre & tag & body & rest & _ & [= ->] & (_ & _ & Hmin) & _).
      done.
    - apply (extract_return_shape false) in H
        as (pre & tag & body & rest & _ & [= ->] & (_ & _ & Hmin) & _).
      done. }
  split_and!; [done| |].
  - apply (extract_no_match true), unframed_no_block. by left.
  - apply (extract_no_match false), unframed_no_block. by left.
Qed.

Lemma extracted_code_holds_no_block_witness :
  Dist.extractCodeBlock (str "code block") = Throw (block_count_error 0).
Proof.
  refine (proj1 (proj2
    (extracted_code_holds_no_block scenario1 (str "code block") _))).
  left. vm_compute. reflexivity.
Defined.

(** Every match takes at least eight code units of the text. *)
Lemma matches_length (d : bool) (s : jsstring) :
  8 * length (matches d s) <= length s.
Proof.
  remember (length s) as n eqn:Hn. revert s Hn.
  induction n as [n IH] using lt_wf_ind. intros s ->.
  destruct (leftmost_split d s) as [H|(pre & tag & body & rest & -> & Hw & Hl)].
  - rewrite matches_none by done. cbn. lia.
  - rewrite matches_leftmost by done.
    rewrite !length_app, block_text_length. cbn [length].
    assert (8 * length (matches d rest) <= length rest) as Hr.
    { eapply IH; [|done]. rewrite !length_app, block_text_length. lia. }
    lia.
Qed.

(** X2: a text of fewer than eight code units (the empty text included)
    always fails with count 0, and the count an error reports is at most
    an eighth of the length of the text. *)
Theorem extractCodeBlock_count_bound (s : jsstring) :
  (length s < 8 ->
   Dist.extractCodeBlock s = Throw (block_count_error 0) /\
   Draft.extractCodeBlock s = Throw (block_count_error 0)) /\
  (forall n,
     Dist.extractCodeBlock s = Throw (block_count_error n) \/
     Draft.extractCodeBlock s = Throw (block_count_error n) ->
     8 * n <= length s).
Proof.
  split.
  - intros Hs.
    assert (forall d, matches d s = []) as E.
    { intros d. pose proof (matches_length d s) as Hl.
      destruct (matches d s); [done|]. cbn in Hl. lia. }
    split; [apply (extract_no_match true) | apply (extract_no_match false)];
      apply E.
  - intros n [H|H].
    + apply (extract_throw_count true) in H as ->. apply matches_length.
    + apply (extract_throw_count false) in H as ->. apply matches_length.
Qed.

Lemma extractCodeBlock_count_bound_witness :
  Dist.extractCodeBlock [] = Throw (block_count_error 0) /\
  8 * 2 <= length two_blocks.
Proof.
  split.
  - apply (proj1 (extractCodeBlock_count_bound [])). cbn. lia.
  - apply (proj2 (extractCodeBlock_count_bound two_blocks)).
    left. vm_compute. reflexivity.
Defined.

(** X3: the earlier revision only ever returns one line: the code it
    returns holds no line terminator. *)
Theorem Draft_extracts_a_single_line (s : jsstring) (v : value) :
  Draft.extractCodeBlock s = Return v ->
  exists code,
    v = VString code /\
    forall c, c ∈ code -> is_line_terminator c = false.
Proof.
  intros H. apply (extract_return_shape false) in H
    as (pre & tag & body & rest & _ & -> & (_ & Hdot & _) & _).
  exists body. split; [done|]. intros c Hc. apply Hdot in Hc.
  unfold dot in Hc. cbn in Hc. by destruct (is_line_terminator c).
Qed.

Lemma Draft_extracts_a_single_line_witness :
  exists code,
    VString (str "code block") = VString code /\
    forall c, c ∈ code -> is_line_terminator c = false.
Proof.
  apply (Draft_extracts_a_single_line scenario1).
  vm_compute. reflexivity.
Defined.

Lemma starts_block_dotAll (s : jsstring) :
  starts_block false s -> starts_block true s.
Proof.
  intros (tag & body & rest & -> & Hnl & _ & Hmin).
  exists tag, body, rest. by split_and!.
Qed.

(** X4: the [s] flag changed nothing for one-line blocks: when the
    current revision returns a code without line terminator, the earlier
    revision returns the same code. *)
Theorem Draft_agrees_on_single_line (s code : jsstring) :
  Dist.extractCodeBlock s = Return (VString code) ->
  (forall c, c ∈ code -> is_line_terminator c = false) ->
  Draft.extractCodeBlock s = Return (VString code).
Proof.
  intros H Hline. apply (extract_return_shape true) in H
    as (pre & tag & body & rest & -> & [= ->] & (Hnl & _ & Hmin) & Hl & Hr).
  apply (extract_return_of_shape false).
  - split_and!; [done| |done]. intros c Hc. unfold dot.
    by rewrite (Hline c Hc).
  - intros p1 p2 E Hp Hs. by eapply Hl, starts_block_dotAll.
  - apply matches_nil_iff. intros p s' E Hs.
    eapply (proj1 (matches_nil_iff true rest)); [done..|].
    by apply starts_block_dotAll.
Qed.

Lemma Draft_agrees_on_single_line_witness :
  Draft.extractCodeBlock scenario1 = Return (VString (str "code block")).
Proof.
  apply Draft_agrees_on_single_line.
  - vm_compute. reflexivity.
  - intros c Hc.
    repeat (apply elem_of_cons in Hc as [->|Hc]; [reflexivity|]).
    by apply elem_of_nil in Hc.
Defined.

(* ================================================================= *)
(** * The text around the blocks *)

(** A match never ends in a text without backtick. *)
Lemma starts_block_app (d : bool) (s post : jsstring) :
  BT ∉ post -> starts_block d (s ++ post) <-> starts_block d s.
Proof.
  intros Hpost. split.
  - intros (tag & body & rest & E & Hw).
    assert (exists rest', s = block_text tag body ++ rest') as [rest' ->];
      [|by exists tag, body, rest'].
    assert (exists X, block_text tag body = X ++ [BT]) as [X Eb].
    { exists (fence ++ tag ++ NL :: body ++ [NL; BT; BT]).
      unfold block_text, fence. rewrite <- !app_assoc. cbn.
      do 4 f_equal. rewrite <- !app_assoc. by cbn. }
    rewrite Eb in E |- *. rewrite <- app_assoc in E.
    apply app_eq_app in E as [l [[-> Hl]|[El Hl]]].
    + destruct l as [|c l]; cbn in Hl.
      * exfalso. apply Hpost. rewrite <- Hl. left.
      * injection Hl as <- _. exists l. by rewrite <- app_assoc.
    + exfalso. apply Hpost. rewrite Hl. apply elem_of_app. right. left.
  - intros (tag & body & rest & -> & Hw).
    exists tag, body, (rest ++ post). by rewrite <- app_assoc.
Qed.

Lemma starts_block_backtick (d : bool) (c : char) (s : jsstring) :
  starts_block d (c :: s) -> c = BT.
Proof. intros [k E]%starts_block_fence. by injection E as ->. Qed.

Lemma no_backtick_no_block (d : bool) (post pre s' : jsstring) :
  BT ∉ post -> post = pre ++ s' -> ~ starts_block d s'.
Proof.
  intros Hpost ->. destruct s' as [|c s']; [apply starts_block_nil|].
  intros ->%starts_block_backtick. apply Hpost, elem_of_app. right. left.
Qed.

(** Both searches see the same in [s] and in [s] followed by a text
    without backtick. *)
Lemma search_app (d : bool) (s post : jsstring) :
  BT ∉ post ->
  matches d (s ++ post) = matches d s /\
  exec (fence_regex d) (s ++ post) = exec (fence_regex d) s.
Proof.
  intros Hpost. remember (length s) as n eqn:Hn. revert s Hn.
  induction n as [n IH] using lt_wf_ind. intros s ->.
  destruct (leftmost_split d s) as [H|(pre & tag & body & rest & -> & Hw & Hl)].
  - assert (forall p s', s ++ post = p ++ s' -> ~ starts_block d s') as H'.
    { intros p s' E.
      apply app_eq_app in E as [l [[-> ->]|[-> ->]]].
      - rewrite starts_block_app by done. by eapply H.
      - by eapply no_backtick_no_block. }
    by rewrite !matches_none, !exec_none.
  - rewrite <- !app_assoc.
    assert (forall p1 p2, pre = p1 ++ p2 -> p2 <> [] ->
              ~ starts_block d (p2 ++ block_text tag body ++ rest ++ post))
      as Hl'.
    { intros p1 p2 E Hp. rewrite !app_assoc, starts_block_app by done.
      rewrite <- !app_assoc. by eapply Hl. }
    rewrite !matches_leftmost, !exec_leftmost by done.
    split; [|done]. f_equal.
    eapply IH; [|done]. rewrite !length_app, block_text_length. lia.
Qed.

Lemma search_prefix (d : bool) (pre s : jsstring) :
  BT ∉ pre ->
  matches d (pre ++ s) = matches d s /\
  exec (fence_regex d) (pre ++ s) = exec (fence_regex d) s.
Proof.
  induction pre as [|c pre IH]; intros H; [done|].
  apply not_elem_of_cons in H as [Hc H].
  assert (~ starts_block d (c :: pre ++ s)) as Hn
    by (by intros ?%starts_block_backtick).
  cbn [app]. rewrite matches_skip, exec_skip by done. by apply IH.
Qed.

(** X22: prose without backtick around a text changes nothing: both
    revisions give the same result, value or error, for the text alone
    and for the text with such prose before and after it. *)
Theorem extractCodeBlock_ignores_plain_context (pre s post : jsstring) :
  BT ∉ pre -> BT ∉ post ->
  Dist.extractCodeBlock (pre ++ s ++ post) = Dist.extractCodeBlock s /\
  Draft.extractCodeBlock (pre ++ s ++ post) = Draft.extractCodeBlock s.
Proof.
  intros Hpre Hpost.
  assert (forall d,
            matches d (pre ++ s ++ post) = matches d s /\
            exec (fence_regex d) (pre ++ s ++ post) =
            exec (fence_regex d) s) as H.
  { intros d. destruct (search_prefix d pre (s ++ post) Hpre) as [-> ->].
    by apply search_app. }
  unfold Dist.extractCodeBlock, Draft.extractCodeBlock, match_first.
  rewrite !match_global_matches.
  destruct (H true) as [-> ->], (H false) as [-> ->]. done.
Qed.

Lemma extractCodeBlock_ignores_plain_context_witness :
  Dist.extractCodeBlock
    (str "Sure, here it is:" ++ scenario1 ++ str " Anything else?") =
  Dist.extractCodeBlock scenario1.
Proof.
  apply extractCodeBlock_ignores_plain_context;
    apply (bool_decide_unpack _); vm_compute; exact I.
Defined.

(* ================================================================= *)
(** * Further properties of the marker *)

(** A text with exactly two quotes fixes what stands between two quotes
    of any of its parts. *)
Lemma between_two_quotes (q : char) (u v w x y z : jsstring) :
  q ∉ u -> q ∉ v -> q ∉ w -> q ∉ y ->
  u ++ q :: v ++ q :: w = x ++ q :: y ++ q :: z ->
  y = v.
Proof.
  intros Hu Hv Hw Hy E.
  assert (forall a b a' b' : jsstring,
            q ∉ a -> q ∉ a' -> a ++ q :: b = a' ++ q :: b' -> a = a') as Hfirst.
  { intros a b a' b' Ha Ha' Hab.
    apply app_eq_app in Hab as [l [[-> Hl]|[-> Hl]]];
      (destruct l as [|c l]; [by rewrite app_nil_r|]);
      injection Hl as <- _.
    - exfalso. apply Ha, elem_of_app. right. left.
    - exfalso. apply Ha', elem_of_app. right. left. }
  apply app_eq_app in E as [l [[-> Hl]|[-> Hl]]].
  - destruct l as [|c l]; cbn in Hl.
    + injection Hl as Hl. symmetry. by eapply Hfirst.
    + injection Hl as <- _. exfalso. apply Hu, elem_of_app. right. left.
  - destruct l as [|c l]; cbn in Hl.
    + injection Hl as Hl. by eapply Hfirst.
    + injection Hl as <- Hl. exfalso.
      apply app_eq_app in Hl as [k [[-> Hk]|[-> Hk]]].
      * destruct k as [|c k]; cbn in Hk.
        -- injection Hk as <-. apply Hw, elem_of_app. right. left.
        -- injection Hk as <- _. apply Hv, elem_of_app. right. left.
      * destruct k as [|c k]; cbn in Hk.
        -- injection Hk as ->. apply Hw, elem_of_app. right. left.
        -- injection Hk as <- ->. apply Hw.
           apply elem_of_app. right. left.
Qed.

Lemma quote_not_in_str_performed : QUOTE ∉ str "// performed ".
Proof. apply (bool_decide_unpack _). vm_compute. exact I. Qed.

Lemma quote_not_in_str_review : QUOTE ∉ str " review".
Proof. apply (bool_decide_unpack _). vm_compute. exact I. Qed.

Lemma quote_not_in_str_on : QUOTE ∉ str " on ".
Proof. apply (bool_decide_unpack _). vm_compute. exact I. Qed.

(** X5: the quotes delimit the name.  In a text without other quotes, the
    marker of one name is never found in the marker of another name, with
    or without date: [a] is not taken for [ab]. *)
Theorem marker_name_is_delimited
    (n1 n2 : jsstring) (date : option jsstring) (pre post : jsstring) :
  QUOTE ∉ n1 -> QUOTE ∉ n2 -> QUOTE ∉ text_of date ->
  QUOTE ∉ pre -> QUOTE ∉ post ->
  includes (pre ++ generateComment n2 date ++ post)
           (generateComment n1 None) = true ->
  n1 = n2.
Proof.
  intros H1 H2 Hd Hpre Hpost (a & b & E)%includes_spec.
  assert (exists tail,
            (QUOTE ∉ tail) /\
            generateComment n2 date ++ post =
            str "// performed " ++ QUOTE :: n2 ++ QUOTE :: tail)
    as (tail & Htail & E2).
  { unfold generateComment. destruct (truthy date).
    - exists (str " review" ++ str " on " ++ text_of date ++ post). split.
      + rewrite !not_elem_of_app. split_and!; try done.
        * apply quote_not_in_str_review.
        * apply quote_not_in_str_on.
      + rewrite <- !app_assoc. cbn. do 13 f_equal. by rewrite <- !app_assoc.
    - exists (str " review" ++ post). split.
      + rewrite not_elem_of_app. split; [apply quote_not_in_str_review|done].
      + rewrite <- !app_assoc. cbn. do 13 f_equal. by rewrite <- !app_assoc. }
  rewrite E2 in E. unfold generateComment in E. cbn [truthy] in E.
  apply (between_two_quotes QUOTE (pre ++ str "// performed ") n2 tail
           (a ++ str "// performed ") n1 (str " review" ++ b)); try done.
  - rewrite not_elem_of_app. split; [done|apply quote_not_in_str_performed].
  - rewrite <- !app_assoc. rewrite E. rewrite <- !app_assoc. cbn.
    do 14 f_equal. by rewrite <- !app_assoc.
Qed.

Lemma marker_name_is_delimited_witness : str "ab" = str "ab".
Proof.
  apply (marker_name_is_delimited (str "ab") (str "ab")
           (Some (str "2023-10-01")) (str "// header" ++ [NL])
           (NL :: str "code"));
    apply (bool_decide_unpack _); vm_compute; exact I.
Defined.

(** The text before the first separator is the first piece of [split]. *)
Lemma split_head_split (sep : char) (s : jsstring) :
  split_head sep s = default [] (head (split sep s)).
Proof.
  induction s as [|c s IH]; [done|]. cbn.
  destruct (N.eqb c sep); [done|].
  rewrite IH. by destruct (split sep s).
Qed.

Lemma split_head_app (sep : char) (a b : jsstring) :
  sep ∉ a -> split_head sep (a ++ sep :: b) = a.
Proof.
  induction a as [|c a IH]; intros H; cbn.
  - by rewrite N.eqb_refl.
  - apply not_elem_of_cons in H as [Hc H].
    destruct (N.eqb_spec c sep) as [->|_]; [done|]. by rewrite IH.
Qed.

Lemma split_head_id (sep : char) (a : jsstring) :
  sep ∉ a -> split_head sep a = a.
Proof.
  induction a as [|c a IH]; intros H; cbn; [done|].
  apply not_elem_of_cons in H as [Hc H].
  destruct (N.eqb_spec c sep) as [->|_]; [done|]. by rewrite IH.
Qed.

(** X6: the earlier revision of [generateComment] keeps the text before
    the first dot only: two prompt files that differ behind their first
    dot get the same marker, the marker of their common stem; on a name
    without dot the two revisions agree. *)
Theorem Draft_generateComment_stem
    (stem e1 e2 : jsstring) (date : option jsstring) :
  DOT ∉ stem ->
  Draft_comment.generateComment (stem ++ DOT :: e1) date =
    Draft_comment.generateComment (stem ++ DOT :: e2) date /\
  Draft_comment.generateComment (stem ++ DOT :: e1) date =
    generateComment stem date /\
  Draft_comment.generateComment stem date = generateComment stem date.
Proof.
  intros H. unfold Draft_comment.generateComment, generateComment.
  by rewrite !split_head_app, split_head_id.
Qed.

Lemma Draft_generateComment_stem_witness :
  Draft_comment.generateComment (str "example.test.txt") None =
  Draft_comment.generateComment (str "example.review") None.
Proof.
  refine (proj1 (Draft_generateComment_stem (str "example")
                   (str "test.txt") (str "review") None _)).
  apply (bool_decide_unpack _). vm_compute. exact I.
Defined.

(* ================================================================= *)
(** * Further properties of processFile and requiresProcessing *)

Lemma includes_head (t post : jsstring) : includes (t ++ post) t = true.
Proof. apply includes_spec. by exists [], post. Qed.

(** The dateless marker begins every marker. *)
Lemma generateComment_prefix (name : jsstring) (date : option jsstring) :
  exists tail, generateComment name date = generateComment name None ++ tail.
Proof.
  unfold generateComment. cbn [truthy]. destruct (truthy date).
  - by eexists.
  - exists []. by rewrite app_nil_r.
Qed.

Lemma includes_dateless (content name : jsstring) (date : option jsstring) :
  includes content (generateComment name date) = true ->
  includes content (generateComment name None) = true.
Proof.
  destruct (generateComment_prefix name date) as [tail ->].
  rewrite !includes_spec. apply occurs_in_prefix.
Qed.

(** The ways [processFile] can end. *)
Lemma processFile_cases
    (extname : jsstring -> jsstring)
    (create_completion : jsstring -> jsstring -> outcome (option jsstring))
    (date : jsstring) (fs : gmap (list N) (list N))
    (filePath prompt promptName gptModel : jsstring) :
  let r := processFile extname create_completion date fs
             filePath prompt promptName gptModel in
  (r.1 = fs /\ r.2 <> [LogProcessing filePath; LogFinished] /\
   (r.2 = [LogSkipping filePath] ->
    exists content,
      fs !! filePath = Some content /\
      includes content (generateComment promptName (Some date)) = true)) \/
  (exists content code,
     fs !! filePath = Some content /\
     includes content (generateComment promptName (Some date)) = false /\
     r.1 = <[filePath := generateComment promptName (Some date) ++ [NL] ++
                         to_string code]> fs /\
     r.2 = [LogProcessing filePath; LogFinished]).
Proof.
  unfold processFile, readFile, writeFile. cbn zeta.
  destruct (fs !! filePath) as [content|]; [|left; by split_and!].
  destruct (includes content _) eqn:Hi.
  { left. split_and!; [done|done|]. intros _. by exists content. }
  destruct (create_completion _ _) as [c|e]; [|left; by split_and!].
  destruct (Dist.extractCodeBlock _) as [code|e]; [|left; by split_and!].
  right. by exists content, code.
Qed.

(** X7: [processFile] touches no file but the one it is given, and it
    neither creates nor removes a file: a path that does not exist is
    left missing. *)
Theorem processFile_frame
    (extname : jsstring -> jsstring)
    (create_completion : jsstring -> jsstring -> outcome (option jsstring))
    (date : jsstring) (fs : gmap (list N) (list N))
    (filePath prompt promptName gptModel : jsstring) :
  (forall other : jsstring,
     other <> filePath ->
     (processFile extname create_completion date fs
        filePath prompt promptName gptModel).1 !! other = fs !! other) /\
  dom (processFile extname create_completion date fs
         filePath prompt promptName gptModel).1 = dom fs.
Proof.
  destruct (processFile_cases extname create_completion date fs
              filePath prompt promptName gptModel)
    as [(-> & _)|(content & code & Hfs & _ & -> & _)]; [done|].
  split.
  - intros other Ho. by rewrite lookup_insert_ne.
  - by apply dom_insert_lookup_L.
Qed.

(** X8: once [processFile] has finished with a file, a second run for
    the same prompt name on the same date skips it without asking the
    endpoint: whatever the endpoint would answer now, and whatever prompt
    and model are given, the file system stays as the first run left
    it. *)
Theorem processFile_skips_after_finishing
    (extname extname' : jsstring -> jsstring)
    (create_completion create_completion' :
       jsstring -> jsstring -> outcome (option jsstring))
    (date : jsstring) (fs : gmap (list N) (list N))
    (filePath prompt prompt' promptName gptModel gptModel' : jsstring) :
  (processFile extname create_completion date fs
     filePath prompt promptName gptModel).2 =
    [LogProcessing filePath; LogFinished] ->
  processFile extname' create_completion' date
    (processFile extname create_completion date fs
       filePath prompt promptName gptModel).1
    filePath prompt' promptName gptModel' =
  ((processFile extname create_completion date fs
      filePath prompt promptName gptModel).1,
   [LogSkipping filePath]).
Proof.
  destruct (processFile_cases extname create_completion date fs
              filePath prompt promptName gptModel)
    as [(_ & Hn & _)|(content & code & Hfs & _ & -> & _)]; [done|].
  intros _. unfold processFile at 1, readFile.
  by rewrite lookup_insert_eq, includes_head.
Qed.

Lemma processFile_skips_after_finishing_witness :
  (processFile (fun _ => str ".js")
     (fun _ _ => Return (Some (str "Sorry, I cannot help with that.")))
     (str "2023-10-01")
     (processFile (fun _ => str ".ts") (fun _ _ => Return (Some scenario1))
        (str "2023-10-01") {[ str "a.ts" := str "let x = 1;" ]}
        (str "a.ts") (str "Tidy up.") (str "example") (str "gpt-4o-mini")).1
     (str "a.ts") (str "Tidy more.") (str "example") (str "gpt-4o")).2
  = [LogSkipping (str "a.ts")].
Proof.
  rewrite processFile_skips_after_finishing; [reflexivity|].
  unfold processFile, readFile. rewrite lookup_singleton_eq.
  vm_compute. reflexivity.
Defined.

(** X9: once [processFile] reports that it finished, the file carries the
    marker: [requiresProcessing] answers [false] for it, on any later
    day. *)
Theorem processFile_marks_the_file
    (extname : jsstring -> jsstring)
    (create_completion : jsstring -> jsstring -> outcome (option jsstring))
    (date : jsstring) (fs : gmap (list N) (list N))
    (filePath prompt promptName gptModel : jsstring) :
  (processFile extname create_completion date fs
     filePath prompt promptName gptModel).2 =
    [LogProcessing filePath; LogFinished] ->
  requiresProcessing
    (processFile extname create_completion date fs
       filePath prompt promptName gptModel).1 filePath promptName =
  Return false.
Proof.
  destruct (processFile_cases extname create_completion date fs
              filePath prompt promptName gptModel)
    as [(_ & Hn & _)|(content & code & Hfs & _ & -> & _)]; [done|].
  intros _. unfold requiresProcessing, readFile.
  rewrite lookup_insert_eq.
  by rewrite (includes_dateless _ _ (Some date)) by apply includes_head.
Qed.

Lemma processFile_marks_the_file_witness :
  requiresProcessing
    (processFile (fun _ => str ".ts") (fun _ _ => Return (Some scenario1))
       (str "2023-10-01") {[ str "a.ts" := str "let x = 1;" ]}
       (str "a.ts") (str "Tidy up.") (str "example") (str "gpt-4o-mini")).1
    (str "a.ts") (str "example") = Return false.
Proof.
  apply processFile_marks_the_file.
  unfold processFile, readFile. rewrite lookup_singleton_eq.
  vm_compute. reflexivity.
Defined.

(** X10: a file for which [requiresProcessing] answers [true] is never
    skipped by [processFile]: its own test for the dated marker cannot
    succeed when the dateless marker is missing. *)
Theorem processFile_never_skips_after_requiresProcessing
    (extname : jsstring -> jsstring)
    (create_completion : jsstring -> jsstring -> outcome (option jsstring))
    (date : jsstring) (fs : gmap (list N) (list N))
    (filePath prompt promptName gptModel : jsstring) :
  requiresProcessing fs filePath promptName = Return true ->
  (processFile extname create_completion date fs
     filePath prompt promptName gptModel).2 <> [LogSkipping filePath].
Proof.
  unfold requiresProcessing, readFile. intros Hr Hs.
  destruct (processFile_cases extname create_completion date fs
              filePath prompt promptName gptModel)
    as [(_ & _ & H)|(content & code & _ & _ & _ & E)].
  - destruct (H Hs) as (content & Hfs & Hi). rewrite Hfs in Hr.
    by rewrite (includes_dateless _ _ _ Hi) in Hr.
  - rewrite E in Hs. discriminate Hs.
Qed.

Lemma processFile_never_skips_after_requiresProcessing_witness :
  (processFile (fun _ => str ".ts") (fun _ _ => Return (Some scenario1))
     (str "2023-10-01") {[ str "a.ts" := str "let x = 1;" ]}
     (str "a.ts") (str "Tidy up.") (str "example") (str "gpt-4o-mini")).2
  <> [LogSkipping (str "a.ts")].
Proof.
  apply processFile_never_skips_after_requiresProcessing.
  unfold requiresProcessing, readFile. rewrite lookup_singleton_eq.
  vm_compute. reflexivity.
Defined.

(* ================================================================= *)
(** * Properties of getParams *)

Section getParams_properties.

Variable basename : jsstring -> jsstring.

Lemma getParams_loop_app (v : locals) (l1 l2 : list jsstring) :
  getParams_loop basename v (l1 ++ l2) =
  match getParams_loop basename v l1 with
  | Proceed v' => getParams_loop basename v' l2
  | Exit m => Exit m
  end.
Proof.
  revert v; induction l1 as [|a l1 IH]; intros v; cbn; [done|].
  by destruct (getParams_step basename v a).
Qed.

Lemma getParams_step_unknown (v : locals) (arg : jsstring) :
  unknown_option arg = true ->
  getParams_step basename v arg = Exit (str "Unknown option: " ++ arg).
Proof.
  unfold unknown_option, getParams_step.
  destruct (bool_decide (arg = str "--dry")),
    (startsWith arg (str "--name=")), (startsWith arg (str "--model=")),
    (startsWith arg (str "--includes=")), (startsWith arg (str "--ext=")),
    (startsWith arg (str "--")); cbn; done.
Qed.

Lemma getParams_step_known (v : locals) (arg : jsstring) :
  unknown_option arg = false ->
  exists v', getParams_step basename v arg = Proceed v'.
Proof.
  unfold unknown_option, getParams_step.
  destruct (bool_decide (arg = str "--dry")),
    (startsWith arg (str "--name=")), (startsWith arg (str "--model=")),
    (startsWith arg (str "--includes=")), (startsWith arg (str "--ext=")),
    (startsWith arg (str "--")); cbn; try done;
    intros _; repeat case_match; by eexists.
Qed.

(** The loop exits exactly at its first unknown option. *)
Lemma getParams_loop_exit (v : locals) (args : list jsstring) :
  (exists a, a ∈ args /\ unknown_option a = true) ->
  exists a, a ∈ args /\ unknown_option a = true /\
    getParams_loop basename v args = Exit (str "Unknown option: " ++ a).
Proof.
  revert v; induction args as [|a args IH]; intros v (b & Hb & Hu).
  - by apply elem_of_nil in Hb.
  - cbn. destruct (unknown_option a) eqn:Ha.
    + exists a. rewrite getParams_step_unknown by done.
      split_and!; [left|done|done].
    + destruct (getParams_step_known v a Ha) as [v' ->].
      apply elem_of_cons in Hb as [->|Hb]; [congruence|].
      destruct (IH v') as (c & Hc & Huc & ->); [by exists b|].
      exists c. split_and!; [by right|done|done].
Qed.

Lemma getParams_loop_proceed (v v' : locals) (args : list jsstring) :
  getParams_loop basename v args = Proceed v' ->
  forall a, a ∈ args -> unknown_option a = false.
Proof.
  intros H a Ha. destruct (unknown_option a) eqn:Hu; [|done].
  destruct (getParams_loop_exit v args) as (c & _ & _ & E); [by exists a|].
  congruence.
Qed.

(** The loop exits at the first unknown option and names it. *)
Lemma getParams_loop_first_exit (v : locals)
    (before : list jsstring) (a : jsstring) (after : list jsstring) :
  (forall b, b ∈ before -> unknown_option b = false) ->
  unknown_option a = true ->
  getParams_loop basename v (before ++ a :: after) =
  Exit (str "Unknown option: " ++ a).
Proof.
  revert v; induction before as [|b before IH]; intros v Hb Ha;
    cbn [app getParams_loop].
  - by rewrite getParams_step_unknown.
  - destruct (getParams_step_known v b) as [v' ->]; [apply Hb; left|].
    apply IH; [|done]. intros c Hc. apply Hb. by right.
Qed.

(** Among arguments that hold an unknown option there is a first one. *)
Lemma first_unknown_option (args : list jsstring) (a : jsstring) :
  a ∈ args -> unknown_option a = true ->
  exists before a' after,
    args = before ++ a' :: after /\
    (forall b, b ∈ before -> unknown_option b = false) /\
    unknown_option a' = true.
Proof.
  induction args as [|c args IH]; intros Ha Hu.
  - by apply elem_of_nil in Ha.
  - destruct (unknown_option c) eqn:Hc.
    + exists [], c, args. split_and!; [done| |done].
      intros b Hb. by apply elem_of_nil in Hb.
    + apply elem_of_cons in Ha as [->|Ha]; [congruence|].
      destruct (IH Ha Hu) as (before & a' & after & -> & Hb & Ha').
      exists (c :: before), a', after. split_and!; [done| |done].
      intros b [->|Hin]%elem_of_cons; [done|by apply Hb].
Qed.

(** X11: an argument that begins with two dashes and is no known option
    makes [getParams] exit, wherever it stands and whatever else is
    given; the message names the first such argument: the one with no
    unknown option among the arguments in front of it. *)
Theorem getParams_unknown_option
    (env_model : option jsstring) (argv : list jsstring) (a : jsstring) :
  a ∈ drop 2 argv -> unknown_option a = true ->
  exists before a' after,
    drop 2 argv = before ++ a' :: after /\
    (forall b, b ∈ before -> unknown_option b = false) /\
    unknown_option a' = true /\
    getParams basename env_model argv =
    Exit (str "Unknown option: " ++ a').
Proof.
  intros Ha Hu.
  destruct (first_unknown_option _ _ Ha Hu)
    as (before & a' & after & E & Hb & Ha').
  exists before, a', after. split_and!; try done.
  unfold getParams. rewrite E.
  by rewrite getParams_loop_first_exit.
Qed.

Lemma truthy_text_of (d : option jsstring) :
  truthy d = true -> text_of d <> [] /\ d = Some (text_of d).
Proof. by destruct d as [[|c s]|]. Qed.

(** X12: when [getParams] returns, the prompt path, the prompt name, the
    model and the source path are all non-empty, and no argument was an
    unknown option. *)
Theorem getParams_returns_complete_params
    (env_model : option jsstring) (argv : list jsstring) (p : IParams) :
  getParams basename env_model argv = Proceed p ->
  promptPath p <> [] /\ promptName p <> [] /\ gptModel p <> [] /\
  sourcePath p <> [] /\
  forall a, a ∈ drop 2 argv -> unknown_option a = false.
Proof.
  unfold getParams.
  destruct (getParams_loop _ _ _) as [v|m] eqn:El; [|done].
  unfold getParams_finish.
  destruct (truthy (l_gptModel v)) eqn:Hm; [|done].
  destruct (truthy (l_promptPath v)) eqn:Hp; [|done].
  destruct (truthy (l_sourcePath v)) eqn:Hs; [|done].
  destruct (truthy (l_promptName v)) eqn:Hn; [|done].
  cbn. intros [= <-]. cbn.
  split_and!; try (by apply truthy_text_of).
  by eapply getParams_loop_proceed.
Qed.

Lemma getParams_step_dryRun (v v' : locals) (arg : jsstring) :
  getParams_step basename v arg = Proceed v' ->
  l_dryRun v' = l_dryRun v || bool_decide (arg = str "--dry").
Proof.
  unfold getParams_step.
  destruct (bool_decide (arg = str "--dry")).
  - intros [= <-]. cbn. by rewrite orb_true_r.
  - rewrite orb_false_r.
    repeat case_match; intros [= <-]; reflexivity.
Qed.

Lemma getParams_loop_dryRun (v v' : locals) (args : list jsstring) :
  getParams_loop basename v args = Proceed v' ->
  l_dryRun v' = l_dryRun v || bool_decide (str "--dry" ∈ args).
Proof.
  revert v; induction args as [|a args IH]; intros v; cbn [getParams_loop].
  - intros [= <-]. rewrite bool_decide_eq_false_2, orb_false_r; [done|].
    apply not_elem_of_nil.
  - destruct (getParams_step basename v a) as [v1|] eqn:E; [|done].
    intros H. rewrite (IH _ H), (getParams_step_dryRun _ _ _ E).
    rewrite <- orb_assoc. f_equal.
    rewrite <- bool_decide_or. apply bool_decide_ext.
    rewrite elem_of_cons. split; intros [?|?]; auto.
Qed.

(** X13: when [getParams] returns, [dryRun] is set exactly when [--dry]
    is among the arguments. *)
Theorem getParams_dryRun
    (env_model : option jsstring) (argv : list jsstring) (p : IParams) :
  getParams basename env_model argv = Proceed p ->
  (dryRun p = true <-> str "--dry" ∈ drop 2 argv).
Proof.
  unfold getParams.
  destruct (getParams_loop _ _ _) as [v|m] eqn:El; [|done].
  apply getParams_loop_dryRun in El. cbn in El.
  unfold getParams_finish. repeat case_match; try done.
  intros [= <-]. cbn. rewrite El. apply bool_decide_eq_true.
Qed.

(** *** The extensions *)

Lemma split_no_sep (sep : char) (s p : jsstring) :
  p ∈ split sep s -> sep ∉ p.
Proof.
  revert p; induction s as [|c s IH]; intros p; cbn.
  - intros ->%list_elem_of_singleton. apply not_elem_of_nil.
  - destruct (N.eqb_spec c sep) as [->|Hc].
    + intros [->|H]%elem_of_cons; [apply not_elem_of_nil | by apply IH].
    + destruct (split sep s) as [|p0 ps].
      * intros ->%list_elem_of_singleton.
        rewrite not_elem_of_cons. split; [congruence|apply not_elem_of_nil].
      * intros [->|H]%elem_of_cons.
        -- rewrite not_elem_of_cons. split; [congruence|].
           apply IH. left.
        -- apply IH. by right.
Qed.

Lemma trimStart_suffix (s : jsstring) : exists k, s = k ++ trimStart s.
Proof.
  induction s as [|c s [k IH]]; cbn; [by exists []|].
  destruct (is_white_space c).
  - exists (c :: k). cbn. by f_equal.
  - by exists [].
Qed.

Lemma trimStart_head (s : jsstring) (c : char) :
  head (trimStart s) = Some c -> is_white_space c = false.
Proof.
  induction s as [|a s IH]; cbn; [done|].
  destruct (is_white_space a) eqn:Ha; [done|]. by intros [= <-].
Qed.

Lemma trimEnd_prefix (s : jsstring) : exists k, s = trimEnd s ++ k.
Proof.
  unfold trimEnd. destruct (trimStart_suffix (reverse s)) as [k E].
  exists (reverse k). rewrite <- reverse_app, <- E.
  by rewrite reverse_involutive.
Qed.

Lemma trim_spec (s : jsstring) :
  (forall c, c ∈ trim s -> c ∈ s) /\
  (forall c, head (trim s) = Some c -> is_white_space c = false) /\
  (forall c, last (trim s) = Some c -> is_white_space c = false).
Proof.
  unfold trim.
  destruct (trimStart_suffix s) as [k1 E1].
  destruct (trimEnd_prefix (trimStart s)) as [k2 E2].
  split_and!.
  - intros c Hc. rewrite E1, E2, !elem_of_app. auto.
  - intros c Hc. apply (trimStart_head s). rewrite E2.
    by destruct (trimEnd (trimStart s)).
  - intros c. unfold trimEnd. rewrite last_reverse.
    exact (trimStart_head _ c).
Qed.

Lemma parse_extensions_spec (arg e : jsstring) :
  e ∈ parse_extensions arg ->
  e <> [] /\ (44%N ∉ e) /\
  (forall c, head e = Some c -> is_white_space c = false) /\
  (forall c, last e = Some c -> is_white_space c = false).
Proof.
  unfold parse_extensions.
  intros [He Hm]%list_elem_of_filter.
  apply list_elem_of_In, in_map_iff in Hm as (p & <- & Hp%list_elem_of_In).
  destruct (trim_spec p) as (Hsub & Hh & Hl).
  split_and!; try done.
  - by destruct (trim p).
  - intros Hc. exact (split_no_sep _ _ _ Hp (Hsub _ Hc)).
Qed.

Lemma getParams_step_extensions (v v' : locals) (arg : jsstring) :
  getParams_step basename v arg = Proceed v' ->
  l_extensions v' = l_extensions v \/
  l_extensions v' = Some (parse_extensions arg).
Proof.
  unfold getParams_step.
  repeat case_match; intros [= <-]; cbn; auto.
Qed.

Lemma getParams_loop_extensions (v v' : locals) (args : list jsstring) :
  getParams_loop basename v args = Proceed v' ->
  l_extensions v' = l_extensions v \/
  exists a, a ∈ args /\ l_extensions v' = Some (parse_extensions a).
Proof.
  revert v; induction args as [|a args IH]; intros v; cbn.
  - intros [= <-]. by left.
  - destruct (getParams_step basename v a) as [v1|] eqn:E; [|done].
    intros H. destruct (IH _ H) as [->|(b & Hb & ->)].
    + destruct (getParams_step_extensions _ _ _ E) as [-> | ->]; [by left|].
      right. exists a. split; [left|done].
    + right. exists b. split; [by right|done].
Qed.

(** X14: the extensions [getParams] returns are never empty, hold no
    comma and neither begin nor end with white space. *)
Theorem getParams_extensions
    (env_model : option jsstring) (argv : list jsstring) (p : IParams)
    (exts : list jsstring) (e : jsstring) :
  getParams basename env_model argv = Proceed p ->
  extensions p = Some exts ->
  e ∈ exts ->
  e <> [] /\ (44%N ∉ e) /\
  (forall c, head e = Some c -> is_white_space c = false) /\
  (forall c, last e = Some c -> is_white_space c = false).
Proof.
  unfold getParams.
  destruct (getParams_loop _ _ _) as [v|m] eqn:El; [|done].
  apply getParams_loop_extensions in El. cbn in El.
  unfold getParams_finish. repeat case_match; try done.
  intros [= <-]. cbn. intros Hx He.
  destruct El as [El|(a & _ & El)]; rewrite El in Hx; [done|].
  injection Hx as <-. by eapply parse_extensions_spec.
Qed.

(** *** Positional arguments and the name *)

Lemma startsWith_trans (s t u : jsstring) :
  startsWith s t = true -> startsWith t u = true -> startsWith s u = true.
Proof.
  rewrite !startsWith_spec. intros [k ->] [k' ->].
  exists (k' ++ k). by rewrite <- app_assoc.
Qed.

Lemma not_an_option (arg : jsstring) :
  startsWith arg (str "--") = false ->
  bool_decide (arg = str "--dry") = false /\
  startsWith arg (str "--name=") = false /\
  startsWith arg (str "--model=") = false /\
  startsWith arg (str "--includes=") = false /\
  startsWith arg (str "--ext=") = false.
Proof.
  intros H.
  assert (forall t, startsWith t (str "--") = true ->
                    startsWith arg t = false) as Ht.
  { intros t Hp. destruct (startsWith arg t) eqn:E; [|done].
    by rewrite (startsWith_trans _ _ _ E Hp) in H. }
  split_and!; try (by apply Ht).
  apply bool_decide_eq_false_2. intros ->. discriminate H.
Qed.

(** Behind the prompt path and the source path a positional argument is
    dropped. *)
Lemma getParams_step_third (v : locals) (arg : jsstring) :
  truthy (l_promptPath v) = true -> truthy (l_sourcePath v) = true ->
  startsWith arg (str "--") = false ->
  getParams_step basename v arg = Proceed v.
Proof.
  intros Hp Hs Ha. destruct (not_an_option arg Ha) as (H1 & H2 & H3 & H4 & H5).
  unfold getParams_step. by rewrite H1, H2, H3, H4, H5, Ha, Hp, Hs.
Qed.

(** X15: positional arguments behind the prompt path and the source path
    are ignored: adding one to arguments [getParams] accepts gives the
    same parameters. *)
Theorem getParams_ignores_extra_positional
    (env_model : option jsstring) (argv : list jsstring) (p : IParams)
    (extra : jsstring) :
  getParams basename env_model argv = Proceed p ->
  startsWith extra (str "--") = false ->
  getParams basename env_model (argv ++ [extra]) = Proceed p.
Proof.
  unfold getParams. intros H Hx.
  destruct (getParams_loop _ _ (drop 2 argv)) as [v|m] eqn:El; [|done].
  assert (truthy (l_promptPath v) = true /\ truthy (l_sourcePath v) = true)
    as [Hp Hs].
  { unfold getParams_finish in H.
    destruct (truthy (l_gptModel v)); [|done].
    by destruct (truthy (l_promptPath v)), (truthy (l_sourcePath v)). }
  assert (2 <= length argv) as Hlen.
  { destruct argv as [|a0 [|a1 argv]]; cbn; try lia;
      cbn in El; by injection El as <-. }
  rewrite drop_app_le by done.
  rewrite getParams_loop_app, El. cbn [getParams_loop].
  by rewrite getParams_step_third.
Qed.

Lemma getParams_step_keeps_name (v v' : locals) (arg : jsstring) :
  getParams_step basename v arg = Proceed v' ->
  truthy (l_promptName v) = true ->
  startsWith arg (str "--name=") = false ->
  l_promptName v' = l_promptName v.
Proof.
  unfold getParams_step. intros H Hn Ha. rewrite Ha, Hn in H.
  repeat case_match; by simplify_eq.
Qed.

Lemma getParams_loop_keeps_name (v v' : locals) (args : list jsstring) :
  getParams_loop basename v args = Proceed v' ->
  truthy (l_promptName v) = true ->
  (forall b, b ∈ args -> startsWith b (str "--name=") = false) ->
  l_promptName v' = l_promptName v.
Proof.
  revert v; induction args as [|a args IH]; intros v; cbn [getParams_loop].
  - by intros [= <-].
  - destruct (getParams_step basename v a) as [v1|] eqn:E; [|done].
    intros H Hn Hb.
    assert (l_promptName v1 = l_promptName v) as E1.
    { eapply getParams_step_keeps_name; [done..|]. apply Hb. left. }
    rewrite <- E1. apply IH; [done|by rewrite E1|].
    intros b Hin. apply Hb. by right.
Qed.

(** X16: a [--name=] option with a non-empty value that no further
    [--name=] argument follows decides the prompt name, whether it stands
    before or after the prompt path. *)
Theorem getParams_name_option
    (env_model : option jsstring) (argv before after : list jsstring)
    (name : jsstring) (p : IParams) :
  drop 2 argv = before ++ (str "--name=" ++ name) :: after ->
  name <> [] ->
  (forall b, b ∈ after -> startsWith b (str "--name=") = false) ->
  getParams basename env_model argv = Proceed p ->
  promptName p = name.
Proof.
  intros Hargs Hname Hafter. unfold getParams. rewrite Hargs.
  rewrite getParams_loop_app.
  destruct (getParams_loop _ _ before) as [v0|]; [|done].
  cbn [getParams_loop].
  assert (getParams_step basename v0 (str "--name=" ++ name) =
          Proceed (mkLocals (l_promptPath v0) (Some name) (l_sourcePath v0)
                     (l_includesText v0) (l_gptModel v0) (l_extensions v0)
                     (l_dryRun v0))) as ->.
  { unfold getParams_step.
    rewrite bool_decide_eq_false_2 by (cbn; discriminate).
    by rewrite startsWith_app, drop_app_length. }
  destruct (getParams_loop _ _ after) as [v|] eqn:El; [|done].
  apply getParams_loop_keeps_name in El; [|by destruct name|done].
  cbn in El. unfold getParams_finish. repeat case_match; try done.
  intros [= <-]. cbn. by rewrite El.
Qed.

End getParams_properties.

Lemma getParams_unknown_option_witness :
  exists before a' after,
    drop 2 [str "node"; str "index.js"; str "p.md"; str "--dryrun";
            str "--verbose"] = before ++ a' :: after /\
    (forall b, b ∈ before -> unknown_option b = false) /\
    unknown_option a' = true /\
    getParams (fun s => s) None
      [str "node"; str "index.js"; str "p.md"; str "--dryrun";
       str "--verbose"] =
    Exit (str "Unknown option: " ++ a').
Proof.
  apply (getParams_unknown_option (fun s => s) None
           [str "node"; str "index.js"; str "p.md"; str "--dryrun";
            str "--verbose"]
           (str "--verbose")).
  - cbn. right. right. left.
  - vm_compute. reflexivity.
Defined.

Lemma getParams_returns_complete_params_witness :
  promptName
    (mkParams (str "tidy.review") (str "tidy") (str "gpt-4o") (str "src")
       None None false) <> [].
Proof.
  refine (proj1 (proj2
    (getParams_returns_complete_params (fun s => s) (Some (str "gpt-4o"))
       [str "node"; str "index.js"; str "tidy.review"; str "src"] _ _))).
  vm_compute. reflexivity.
Defined.

Lemma getParams_dryRun_witness :
  dryRun
    (mkParams (str "tidy.review") (str "tidy") (str "gpt-4o") (str "src")
       None None true) = true <->
  str "--dry" ∈
    drop 2 [str "node"; str "index.js"; str "--dry"; str "tidy.review";
            str "src"].
Proof.
  apply (getParams_dryRun (fun s => s) (Some (str "gpt-4o"))
           [str "node"; str "index.js"; str "--dry"; str "tidy.review";
            str "src"]).
  vm_compute. reflexivity.
Defined.

Lemma getParams_extensions_witness :
  str "ts" <> [] /\ (44%N ∉ str "ts") /\
  (forall c, head (str "ts") = Some c -> is_white_space c = false) /\
  (forall c, last (str "ts") = Some c -> is_white_space c = false).
Proof.
  apply (getParams_extensions (fun s => s) (Some (str "gpt-4o"))
           [str "node"; str "index.js"; str "--ext= ts, ,js "; str "tidy.review";
            str "src"]
           (mkParams (str "tidy.review") (str "tidy") (str "gpt-4o") (str "src")
              None (Some [str "ts"; str "js"]) false)
           [str "ts"; str "js"]).
  - vm_compute. reflexivity.
  - reflexivity.
  - left.
Defined.

Lemma getParams_ignores_extra_positional_witness :
  getParams (fun s => s) (Some (str "gpt-4o"))
    ([str "node"; str "index.js"; str "tidy.review"; str "src"] ++
     [str "more"]) =
  Proceed (mkParams (str "tidy.review") (str "tidy") (str "gpt-4o")
             (str "src") None None false).
Proof.
  apply getParams_ignores_extra_positional.
  - vm_compute. reflexivity.
  - vm_compute. reflexivity.
Defined.

Lemma getParams_name_option_witness :
  promptName
    (mkParams (str "tidy.review") (str "lint") (str "gpt-4o") (str "src")
       None None false) = str "lint".
Proof.
  apply (getParams_name_option (fun s => s) (Some (str "gpt-4o"))
           [str "node"; str "index.js"; str "tidy.review"; str "--name=lint";
            str "src"]
           [str "tidy.review"] [str "src"] (str "lint")).
  - reflexivity.
  - discriminate.
  - intros b ->%list_elem_of_singleton. vm_compute. reflexivity.
  - vm_compute. reflexivity.
Defined.

(* ================================================================= *)
(** * The prompt name taken from the prompt path *)

Lemma replace_eq (pat rep s : jsstring) :
  replace pat rep s =
  if startsWith s pat then rep ++ drop (length pat) s
  else match s with
       | [] => []
       | c :: s' => c :: replace pat rep s'
       end.
Proof. by destruct s. Qed.

(** A text in which the pattern does not occur is left as it is. *)
Lemma replace_absent (pat rep s : jsstring) :
  includes s pat = false -> replace pat rep s = s.
Proof.
  induction s as [|c s IH]; cbn [includes]; intros H;
    apply orb_false_iff in H as [H1 H2]; rewrite replace_eq, H1; [done|].
  by rewrite IH.
Qed.

(** The first occurrence of the pattern is the one replaced. *)
Lemma replace_first_occurrence (pat rep pre post : jsstring) :
  (forall p1 p2, pre = p1 ++ p2 -> p2 <> [] ->
     startsWith (p2 ++ pat ++ post) pat = false) ->
  replace pat rep (pre ++ pat ++ post) = pre ++ rep ++ post.
Proof.
  induction pre as [|c pre IH]; intros H.
  - cbn [app]. rewrite replace_eq, startsWith_app.
    by rewrite drop_app_length.
  - rewrite replace_eq.
    rewrite (H [] (c :: pre)) by done. cbn [app]. f_equal. apply IH.
    intros p1 p2 -> Hp. by apply (H (c :: p1) p2).
Qed.

Section default_name.

Variable basename : jsstring -> jsstring.
Hypothesis basename_empty : basename [] = [].

(** While no name is given, the name follows the prompt path. *)
Lemma getParams_loop_default_name (v v' : locals) (args : list jsstring) :
  (forall b, b ∈ args -> startsWith b (str "--name=") = false) ->
  (truthy (l_promptPath v) = false /\ truthy (l_promptName v) = false) \/
  (truthy (l_promptPath v) = true /\
   l_promptName v =
   Some (replace (str ".review") [] (basename (text_of (l_promptPath v))))) ->
  getParams_loop basename v args = Proceed v' ->
  (truthy (l_promptPath v') = false /\ truthy (l_promptName v') = false) \/
  (truthy (l_promptPath v') = true /\
   l_promptName v' =
   Some (replace (str ".review") [] (basename (text_of (l_promptPath v'))))).
Proof.
  revert v; induction args as [|a args IH]; intros v Hargs Hv;
    cbn [getParams_loop].
  - by intros [= <-].
  - destruct (getParams_step basename v a) as [v1|] eqn:E; [|done].
    apply IH; [intros b Hb; apply Hargs; by right|].
    assert (startsWith a (str "--name=") = false) as Ha
      by (apply Hargs; left).
    unfold getParams_step in E. rewrite Ha in E.
    destruct Hv as [[Hp Hn]|[Hp Hn]]; rewrite Hp in E.
    + rewrite Hn in E. cbn [negb] in E.
      repeat case_match; simplify_eq; cbn; auto.
      destruct a as [|c a]; cbn.
      * left. by rewrite basename_empty.
      * right. done.
    + cbn [negb] in E.
      repeat case_match; simplify_eq; cbn; auto.
Qed.

(** X23: without a [--name=] option the prompt name is the base name of
    the prompt path with its first [.review] removed and nothing else: a
    base name in which [.review] does not occur is taken whole, extension
    included, and from [stem.review.ext] (no dot in the stem) the name
    [stem.ext] is made. *)
Theorem getParams_default_name
    (env_model : option jsstring) (argv : list jsstring) (p : IParams) :
  (forall b, b ∈ drop 2 argv -> startsWith b (str "--name=") = false) ->
  getParams basename env_model argv = Proceed p ->
  promptName p = replace (str ".review") [] (basename (promptPath p)) /\
  (includes (basename (promptPath p)) (str ".review") = false ->
   promptName p = basename (promptPath p)) /\
  (forall stem rest,
     basename (promptPath p) = stem ++ str ".review" ++ rest ->
     DOT ∉ stem ->
     promptName p = stem ++ rest).
Proof.
  intros Hargs. unfold getParams.
  destruct (getParams_loop _ _ _) as [v|m] eqn:El; [|done].
  apply getParams_loop_default_name in El; [|done|left; by cbn].
  unfold getParams_finish.
  destruct (truthy (l_gptModel v)); [|done].
  destruct (truthy (l_promptPath v)) eqn:Hp; [|done].
  destruct (truthy (l_sourcePath v)); [|done].
  destruct (truthy (l_promptName v)); [|done].
  cbn. intros [= <-]. cbn.
  destruct El as [[? _]|[_ El]]; [done|]. rewrite El. cbn.
  split_and!; [done| |].
  - intros H. by apply replace_absent.
  - intros stem rest -> Hdot.
    apply (replace_first_occurrence (str ".review") [] stem rest).
    intros p1 p2 -> Hp2. destruct p2 as [|c p2]; [done|].
    apply not_elem_of_app in Hdot as [_ Hdot].
    apply not_elem_of_cons in Hdot as [Hc _].
    change (str ".review") with (DOT :: str "review").
    cbn [app startsWith].
    destruct (N.eqb_spec c DOT) as [->|_]; [by destruct Hc|done].
Qed.

End default_name.

Lemma getParams_default_name_witness :
  promptName
    (mkParams (str "tidy.md") (str "tidy.md") (str "gpt-4o") (str "src")
       None None false) = str "tidy.md".
Proof.
  refine (proj1 (proj2
    (getParams_default_name (fun s => s) eq_refl (Some (str "gpt-4o"))
       [str "node"; str "index.js"; str "tidy.md"; str "src"] _ _ _)) _).
  - intros b Hb. cbn in Hb.
    repeat (apply elem_of_cons in Hb as [->|Hb]; [vm_compute; reflexivity|]).
    by apply elem_of_nil in Hb.
  - vm_compute. reflexivity.
  - vm_compute. reflexivity.
Defined.

(* ================================================================= *)
(** * Properties of getFilePaths and main *)

Lemma keep_including_spec (fs : gmap (list N) (list N))
    (text : jsstring) (files : list jsstring) (f : jsstring) :
  f ∈ keep_including fs text files <->
  f ∈ files /\
  exists content, fs !! f = Some content /\ includes content text = true.
Proof.
  induction files as [|g files IH]; cbn.
  - split; [by intros ?%elem_of_nil | by intros [?%elem_of_nil _]].
  - unfold readFile. destruct (fs !! g) as [c|] eqn:Eg.
    + destruct (includes c text) eqn:Ei.
      * rewrite !elem_of_cons, IH. split.
        -- intros [->|[? ?]]; [|by auto]. split; [by left|by exists c].
        -- intros [[->|?] ?]; auto.
      * rewrite elem_of_cons, IH. split; [intros [? ?]; by auto|].
        intros [[->|?] (c' & Hc & Hi)]; [congruence|by eauto].
    + rewrite elem_of_cons, IH. split; [intros [? ?]; by auto|].
      intros [[->|?] (c' & Hc & Hi)]; [congruence|by eauto].
Qed.

(** X17: the files [getFilePaths] returns for a source path that is not a
    directory are that path alone; and with a non-empty [--includes]
    text every file it returns can be read and holds the text. *)
Theorem getFilePaths_returns_matching_files
    (existsSync : jsstring -> bool)
    (isDirectory : jsstring -> outcome bool)
    (glob : jsstring -> outcome (list jsstring))
    (fs : gmap (list N) (list N)) (params : IParams)
    (files : list jsstring) (f : jsstring) :
  getFilePaths existsSync isDirectory glob fs params = Proceed files ->
  f ∈ files ->
  (isDirectory (sourcePath params) = Return false -> f = sourcePath params) /\
  (forall text, includesText params = Some text -> text <> [] ->
     exists content,
       fs !! f = Some content /\ includes content text = true).
Proof.
  unfold getFilePaths. destruct (existsSync _); [|done]. cbn [negb].
  intros H Hf. split.
  - intros Hd. rewrite Hd in H. destruct (truthy _); injection H as <-.
    + change (f ∈ keep_including fs (text_of (includesText params))
                    [sourcePath params]) in Hf.
      apply keep_including_spec in Hf as [Hf _].
      by apply list_elem_of_singleton in Hf.
    + by apply list_elem_of_singleton in Hf.
  - intros text Ht Hne. rewrite Ht in H.
    destruct text as [|c text]; [done|]. cbn [truthy text_of default] in H.
    destruct (isDirectory (sourcePath params)) as [[|]|]; [| |done].
    + destruct (glob _) as [found|]; [|done]. injection H as <-.
      by apply keep_including_spec in Hf as [_ Hf].
    + injection H as <-.
      change (f ∈ keep_including fs (c :: text) [sourcePath params]) in Hf.
      by apply keep_including_spec in Hf as [_ Hf].
Qed.

Lemma getFilePaths_returns_matching_files_witness :
  exists content,
    ({[ str "a.ts" := str "// TODO: tidy" ]} : gmap (list N) (list N))
      !! str "a.ts" = Some content /\
    includes content (str "TODO") = true.
Proof.
  refine (proj2
    (getFilePaths_returns_matching_files (fun _ => true)
       (fun _ => Return false) (fun _ => Return [])
       {[ str "a.ts" := str "// TODO: tidy" ]}
       (mkParams (str "tidy.review") (str "tidy") (str "gpt-4o")
          (str "a.ts") (Some (str "TODO")) None false)
       [str "a.ts"] (str "a.ts") _ _) (str "TODO") _ _).
  - vm_compute. reflexivity.
  - left.
  - reflexivity.
  - discriminate.
Defined.

Lemma requiresProcessing_true (fs : gmap (list N) (list N))
    (f name : jsstring) :
  requiresProcessing fs f name = Return true <->
  exists content,
    fs !! f = Some content /\
    includes content (generateComment name None) = false.
Proof.
  unfold requiresProcessing, readFile. destruct (fs !! f) as [c|].
  - destruct (includes c _) eqn:E; split; try done.
    + intros (c' & [= <-] & ?). congruence.
    + intros _. by exists c.
  - split; [done|]. by intros (c' & ? & _).
Qed.

(** The files [classify] puts on the list to process are candidates for
    which [requiresProcessing] answers [true]. *)
Lemma classify_to_process (fs : gmap (list N) (list N))
    (name : jsstring) (files todo marked : list jsstring) (f : jsstring) :
  classify fs name files = Return (todo, marked) ->
  f ∈ todo ->
  f ∈ files /\ requiresProcessing fs f name = Return true.
Proof.
  revert todo marked; induction files as [|g files IH]; intros todo marked;
    cbn [classify].
  - intros [= <- <-] H. by apply elem_of_nil in H.
  - destruct (requiresProcessing fs g name) as [needed|] eqn:Eg; [|done].
    destruct (classify fs name files) as [[t m]|]; [|done].
    destruct needed; intros [= <- <-] H.
    + apply elem_of_cons in H as [->|H]; [split; [left|done]|].
      destruct (IH _ _ eq_refl H). split; [by right|done].
    + destruct (IH _ _ eq_refl H). split; [by right|done].
Qed.

Section main_properties.

Variable basename : jsstring -> jsstring.
Variable existsSync : jsstring -> bool.
Variable isDirectory : jsstring -> outcome bool.
Variable glob : jsstring -> outcome (list jsstring).
Variable extname : jsstring -> jsstring.
Variable create_completion :
  jsstring -> jsstring -> outcome (option jsstring).
Variable date : jsstring.

(** What the loop over the files to process does to one path. *)
Lemma process_all_lookup (fs : gmap (list N) (list N))
    (prompt name model : jsstring) (files : list jsstring) (f : jsstring) :
  let fs' := (process_all extname create_completion date fs
                prompt name model files).1 in
  dom fs' = dom fs /\
  ((fs' !! f = fs !! f) \/
   (f ∈ files /\
    exists code,
      fs' !! f = Some (generateComment name (Some date) ++ [NL] ++
                       to_string code))).
Proof.
  revert fs; induction files as [|g files IH]; intros fs; cbn zeta.
  - cbn. split; [done|by left].
  - cbn [process_all].
    destruct (processFile extname create_completion date fs g prompt name
                model) as [fs1 out1] eqn:E1.
    destruct (process_all extname create_completion date fs1 prompt name
                model files) as [fs2 out2] eqn:E2.
    cbn [fst]. specialize (IH fs1). rewrite E2 in IH. cbn [fst] in IH.
    destruct IH as [Hdom IH].
    pose proof (processFile_cases extname create_completion date fs
                  g prompt name model) as Hc.
    rewrite E1 in Hc. cbn [fst snd] in Hc.
    destruct Hc as [(-> & _)|(content & code & Hg & _ & -> & _)].
    + split; [done|]. destruct IH as [IH|(Hin & code & IH)]; [by left|].
      right. split; [by right|by exists code].
    + split; [by rewrite Hdom, dom_insert_lookup_L|].
      destruct IH as [IH|(Hin & code' & IH)].
      * destruct (decide (f = g)) as [->|Hne].
        -- right. split; [left|]. exists code.
           by rewrite IH, lookup_insert_eq.
        -- left. by rewrite IH, lookup_insert_ne.
      * right. split; [by right|by exists code'].
Qed.

(** X18: with [--dry] among the arguments [main] changes no file,
    whatever the other arguments and the endpoint do. *)
Theorem main_dry_run
    (env_model : option jsstring) (argv : list jsstring)
    (fs : gmap (list N) (list N)) :
  str "--dry" ∈ drop 2 argv ->
  (main basename existsSync isDirectory glob extname create_completion date
     env_model argv fs).1.1 = fs.
Proof.
  intros Hdry. unfold main, getParams.
  destruct (getParams_loop _ _ _) as [v|m] eqn:El; [|done].
  apply getParams_loop_dryRun in El. cbn in El.
  rewrite bool_decide_eq_true_2 in El by done.
  unfold getParams_finish. repeat case_match; simplify_eq/=; try done.
  congruence.
Qed.

(** X19: when [main] does not run to its end (it exits or its promise is
    rejected), it has changed no file: the arguments, the files and the
    prompt are all checked before the first file is written. *)
Theorem main_fails_before_writing
    (env_model : option jsstring) (argv : list jsstring)
    (fs : gmap (list N) (list N)) :
  (main basename existsSync isDirectory glob extname create_completion date
     env_model argv fs).2 <> Finished ->
  (main basename existsSync isDirectory glob extname create_completion date
     env_model argv fs).1.1 = fs.
Proof.
  unfold main. repeat case_match; simplify_eq/=; done.
Qed.

(** X20: [main] neither creates nor removes a file, whatever the
    arguments and the files are; and when [getParams] returns, every file
    that already carries the marker of the prompt name (with any date or
    none) is left exactly as it is. *)
Theorem main_keeps_marked_files
    (env_model : option jsstring) (argv : list jsstring)
    (fs : gmap (list N) (list N)) :
  dom (main basename existsSync isDirectory glob extname create_completion
         date env_model argv fs).1.1 = dom fs /\
  (forall (p : IParams) (f content : jsstring),
     getParams basename env_model argv = Proceed p ->
     fs !! f = Some content ->
     includes content (generateComment (promptName p) None) = true ->
     (main basename existsSync isDirectory glob extname create_completion
        date env_model argv fs).1.1 !! f = Some content).
Proof.
  split.
  - unfold main. destruct (getParams _ _ _) as [p|]; [|done].
    destruct (getFilePaths _ _ _ _ _) as [files|]; [|done].
    destruct (readFile fs (promptPath p)) as [prompt|]; [|done].
    destruct (classify fs (promptName p) files) as [[todo marked]|]; [|done].
    destruct (dryRun p); [done|].
    pose proof (process_all_lookup fs prompt (promptName p) (gptModel p)
                  todo []) as [Hdom _].
    by destruct (process_all _ _ _ _ _ _ _ _) as [fs' out].
  - intros p f content Hp Hf Hi. unfold main. rewrite Hp.
    destruct (getFilePaths _ _ _ _ _) as [files|]; [|done].
    destruct (readFile fs (promptPath p)) as [prompt|]; [|done].
    destruct (classify fs (promptName p) files) as [[todo marked]|] eqn:Ec;
      [|done].
    destruct (dryRun p); [done|].
    pose proof (process_all_lookup fs prompt (promptName p) (gptModel p)
                  todo f) as Hl.
    destruct (process_all _ _ _ _ _ _ _ _) as [fs' out]. cbn [fst snd] in *.
    destruct Hl as [Hdom [Hl|(Hin & _)]]; [by rewrite Hl|].
    apply (classify_to_process _ _ _ _ _ _ Ec) in Hin as [_ Hr].
    apply requiresProcessing_true in Hr as (c & Hc & Hn). congruence.
Qed.

(** X21: every file [main] has changed carries the marker afterwards, so
    [requiresProcessing] answers [false] for it on the next run. *)
Theorem main_marks_what_it_changes
    (env_model : option jsstring) (argv : list jsstring)
    (fs : gmap (list N) (list N)) (f : jsstring) :
  (main basename existsSync isDirectory glob extname create_completion date
     env_model argv fs).1.1 !! f <> fs !! f ->
  exists p,
    getParams basename env_model argv = Proceed p /\
    requiresProcessing
      (main basename existsSync isDirectory glob extname create_completion
         date env_model argv fs).1.1 f (promptName p) = Return false.
Proof.
  unfold main. destruct (getParams _ _ _) as [p|]; [|done].
  destruct (getFilePaths _ _ _ _ _) as [files|]; [|done].
  destruct (readFile fs (promptPath p)) as [prompt|]; [|done].
  destruct (classify fs (promptName p) files) as [[todo marked]|]; [|done].
  destruct (dryRun p); [done|].
  pose proof (process_all_lookup fs prompt (promptName p) (gptModel p)
                todo f) as Hl.
  destruct (process_all _ _ _ _ _ _ _ _) as [fs' out]. cbn [fst snd] in *.
  destruct Hl as [_ [Hl|(_ & code & Hl)]]; [done|].
  intros _. exists p. split; [done|].
  unfold requiresProcessing, readFile. rewrite Hl.
  by rewrite (includes_dateless _ _ (Some date)) by apply includes_head.
Qed.

End main_properties.

Lemma main_dry_run_witness :
  (example_main (Some (str "gpt-4o")) (example_argv ++ [str "--dry"])
     example_fs).1.1 = example_fs.
Proof.
  apply main_dry_run. cbn. right. right. left.
Defined.

Lemma main_fails_before_writing_witness :
  (example_main None example_argv example_fs).1.1 = example_fs.
Proof.
  apply main_fails_before_writing. vm_compute. discriminate.
Defined.

Lemma main_keeps_marked_files_witness :
  (example_main (Some (str "gpt-4o")) example_argv example_fs_marked).1.1
    !! str "a.ts" =
  Some (generateComment (str "tidy") (Some (str "2023-09-30")) ++
        NL :: str "let x = 1;").
Proof.
  refine (proj2
    (main_keeps_marked_files (fun s => s) (fun _ => true)
       (fun _ => Return false) (fun _ => Return []) (fun _ => str ".ts")
       (fun _ _ => Return (Some scenario1)) (str "2023-10-01")
       (Some (str "gpt-4o")) example_argv example_fs_marked)
    (mkParams (str "tidy.review") (str "tidy") (str "gpt-4o")
       (str "a.ts") None None false)
    (str "a.ts") _ _ _ _).
  - vm_compute. reflexivity.
  - vm_compute. reflexivity.
  - vm_compute. reflexivity.
Defined.

Lemma main_marks_what_it_changes_witness :
  exists p,
    getParams (fun s => s) (Some (str "gpt-4o")) example_argv = Proceed p /\
    requiresProcessing
      (example_main (Some (str "gpt-4o")) example_argv example_fs).1.1
      (str "a.ts") (promptName p) = Return false.
Proof.
  apply (main_marks_what_it_changes (fun s => s) (fun _ => true)
           (fun _ => Return false) (fun _ => Return []) (fun _ => str ".ts")
           (fun _ _ => Return (Some scenario1)) (str "2023-10-01")
           (Some (str "gpt-4o")) example_argv example_fs (str "a.ts")).
  vm_compute. discriminate.
Defined.
